(** * Heimdall: connectivity graph, topology builder and resource router

    A shallow embedding of the Go packages [internal/topology] (the mesh
    connectivity graph), [internal/api] (the observer service: topology
    build and the first half of the resource router) and the parts of
    [internal/serf] they read, followed by the properties proved of them.

    Conventions.
    - A Go [string] is a Rocq [string]; [[]byte] is [list Byte.byte].
    - A Go [map[string]T] that the code only reads through [m[k]] and
      writes through [m[k] = v] is a [gmap string T]; reading a missing
      key yields the zero value, written out with [default].
    - A Go slice that never leaves the function that owns it is the list
      of its elements.  Where a slice is handed to a caller and the
      question is who may write to it (GetNeighbors), the backing arrays
      are modelled as a store, see [GraphMem].
    - A [nil] slice result that the caller tells apart from a non-nil one
      (FindPath) is [None].
    - Code that runs concurrently in Go (the event loop of the mesh, the
      sends of the hub to its watchers) is modelled one call at a time: a
      handler is a function from the state before it to the state after
      it, a started goroutine is an entry in a list, and a buffered
      channel is its capacity and its queued elements. *)

From Equations Require Import Equations.
From Equations.Prop Require Import Logic.
From stdpp Require Import gmap strings list fin_maps sets.
From Stdlib Require Import Strings.Byte.

Local Open Scope string_scope.
Local Open Scope list_scope.
Local Open Scope nat_scope.

(** ** package topology *)

Module topology.

(** [type TopologyEvent struct { Node string; Neighbors []string }] *)
Record TopologyEvent := mkEvent {
  Node : string;
  Neighbors : list string
}.

(** What [Update] writes with [log.Printf]. *)
Inductive log_line :=
| LogParseFailure
| LogUpdated (node : string) (neighbors : list string).

(** [edges map[string][]string], node -> neighbors. *)
Abbreviation Graph := (gmap string (list string)).

(** [NewGraph]: an empty, non-nil map. *)
Definition NewGraph : Graph := ∅.

(** [g.edges[node]]: the stored slice, or the zero value (no elements)
    when the key is missing. *)
Definition edges_of (g : Graph) (node : string) : list string :=
  default [] (g !! node).

(** The inner search loop of [Update]:
    [for _, n := range existing { if n == event.Node { found = true; break } }]. *)
Fixpoint found_in (node : string) (existing : list string) : bool :=
  match existing with
  | [] => false
  | n :: rest => if decide (n = node) then true else found_in node rest
  end.

(** One iteration of the back-fill loop of [Update] for [neighbor]. *)
Definition backfill (node : string) (g : Graph) (neighbor : string) : Graph :=
  let existing := edges_of g neighbor in
  if found_in node existing then g
  else <[neighbor := existing ++ [node]]> g.

(** The body of [Update] after a successful parse: store the announced
    list, then run the back-fill loop over the announced neighbors in
    order. *)
Definition store (event : TopologyEvent) (g : Graph) : Graph :=
  foldl (backfill (Node event)) (<[Node event := Neighbors event]> g)
        (Neighbors event).

Section Update.
(** [json.Unmarshal(eventData, &event)] of [encoding/json], which is not
    part of this repository: [None] is a returned error. *)
Variable unmarshal : list byte → option TopologyEvent.

(** [func (g *Graph) Update(eventData []byte)].  The Go method returns
    nothing; the model returns the new edge map and the lines logged. *)
Definition Update (g : Graph) (eventData : list byte) : Graph * list log_line :=
  match unmarshal eventData with
  | None => (g, [LogParseFailure])
  | Some event => (store event g, [LogUpdated (Node event) (Neighbors event)])
  end.

(** A run of the event loop: [Update] called with each payload in turn. *)
Definition updates (g : Graph) (payloads : list (list byte)) : Graph :=
  foldl (λ g d, fst (Update g d)) g payloads.
End Update.

(** *** FindPath *)

(** What one pass over [g.edges[node]] in [FindPath] leaves behind: either
    the [return append(path, neighbor)], or the updated [visited] and
    [queue]. *)
Inductive scan_result :=
| Found (path : list string)
| Continue (visited : gset string) (queue : list (list string)).

(** [for _, neighbor := range g.edges[node] { ... }] of [FindPath].
    [visited] is a [map[string]bool] that only ever stores [true], so it is
    the set of its keys. *)
Fixpoint scan (to : string) (path : list string) (neighbors : list string)
    (visited : gset string) (queue : list (list string)) : scan_result :=
  match neighbors with
  | [] => Continue visited queue
  | neighbor :: rest =>
      if decide (neighbor = to) then Found (path ++ [neighbor])
      else if decide (neighbor ∈ visited) then scan to path rest visited queue
      else scan to path rest ({[neighbor]} ∪ visited) (queue ++ [path ++ [neighbor]])
  end.

(** How a call of [FindPath] ends.  [path[len(path)-1]] panics on an empty
    path; [Return None] is the [nil] result. *)
Inductive outcome :=
| Panic
| Return (path : option (list string)).

(** Every name that occurs in some stored neighbor list. *)
Definition nodes (g : Graph) : gset string :=
  list_to_set (concat (map_to_list g).*2).

(** The loop variant of the search: names not yet visited, plus paths
    still queued. *)
Definition bfs_measure (g : Graph) (queue : list (list string))
    (visited : gset string) : nat :=
  size (nodes g ∖ visited) + length queue.

(** [for len(queue) > 0 { ... }] of [FindPath]. *)
Equations? bfs (g : Graph) (to : string) (queue : list (list string))
    (visited : gset string) : outcome by wf (bfs_measure g queue visited) lt :=
  bfs g to [] visited := Return None;
  bfs g to (path :: queue) visited with last path := {
    | None := Panic
    | Some node with inspect (scan to path (edges_of g node) visited queue) := {
      | exist _ (Found p) _ := Return (Some p)
      | exist _ (Continue visited' queue') Hscan := bfs g to queue' visited' } }.
Proof.
  (* every neighbor read from the map is one of [nodes g] *)
  assert (∀ n, n ∈ edges_of g node → n ∈ nodes g) as Hnodes.
  { unfold edges_of, nodes. intros n Hin.
    destruct (g !! node) as [l|] eqn:Hl; simpl in Hin; [|by apply elem_of_nil in Hin].
    apply elem_of_list_to_set, list_elem_of_In, in_concat.
    exists l. split; [|by apply list_elem_of_In].
    apply list_elem_of_In, list_elem_of_fmap. exists (node, l). split; [done|].
    by apply elem_of_map_to_list. }
  (* a pass that marks a node also queues one path, so it does not raise
     the measure *)
  assert (bfs_measure g queue' visited' ≤ bfs_measure g queue visited) as Hpass.
  { clear bfs. revert visited queue Hscan Hnodes.
    generalize (edges_of g node) as neighbors.
    induction neighbors as [|nb rest IH]; intros visited queue Hscan Hsub;
      simpl in Hscan.
    - by inversion Hscan.
    - destruct (decide (nb = to)); [discriminate|].
      assert (∀ n, n ∈ rest → n ∈ nodes g) as Hrest by (intros; apply Hsub; by right).
      destruct (decide (nb ∈ visited)) as [Hv|Hv]; [by eapply IH|].
      etrans; [by eapply IH|].
      unfold bfs_measure. rewrite length_app. simpl.
      assert (size (nodes g ∖ visited) = S (size (nodes g ∖ ({[nb]} ∪ visited))))
        as ->; [|lia].
      assert (nb ∈ nodes g) as Hnb by (apply Hsub; left).
      transitivity (size (({[nb]} : gset string) ∪ nodes g ∖ ({[nb]} ∪ visited))).
      + f_equal. apply set_eq. intros x.
        rewrite elem_of_union, !elem_of_difference, elem_of_union, elem_of_singleton.
        destruct (decide (x = nb)) as [->|]; tauto.
      + rewrite (size_union (C := gset string)); [by rewrite size_singleton|].
        intros x. rewrite elem_of_singleton, elem_of_difference, elem_of_union,
          elem_of_singleton. tauto. }
  unfold bfs_measure in *. simpl. lia.
Qed.

(** [func (g *Graph) FindPath(from, to string) []string]. *)
Definition FindPath (g : Graph) (from to : string) : outcome :=
  if decide (from = to) then Return (Some [from])
  else bfs g to [[from]] {[from]}.

(** *** GetNeighbors

    [GetNeighbors] hands a slice to its caller, who may write to it.  To
    say what such a write can reach, this part keeps the backing arrays in
    a store: a slice header is [nil] or a base address with a length, and
    the edge map holds headers. *)

Abbreviation loc := positive.

(** Backing arrays by address. *)
Abbreviation heap := (gmap loc (list string)).

(** A slice header.  Every slice [GetNeighbors] touches starts at the
    beginning of its array, and none is appended to, so offset and
    capacity are left out. *)
Inductive slice :=
| Nil
| Slice (base : loc) (n : nat).

(** [len(s)] *)
Definition len (s : slice) : nat :=
  match s with
  | Nil => 0
  | Slice _ n => n
  end.

(** The elements of [s], read from the store. *)
Definition elems (h : heap) (s : slice) : list string :=
  match s with
  | Nil => []
  | Slice base n => take n (default [] (h !! base))
  end.

(** [make([]string, n)]: a new array of [n] empty strings at an address
    not in use; the result is never [nil]. *)
Definition make (h : heap) (n : nat) : slice * heap :=
  let base := fresh (dom h) in
  (Slice base n, <[base := replicate n ""]> h).

(** [copy(dst, src)]: the first [min(len(dst), len(src))] elements. *)
Definition copy (h : heap) (dst src : slice) : heap :=
  match dst with
  | Nil => h
  | Slice base n =>
      let k := n `min` len src in
      alter (λ arr, take k (elems h src) ++ drop k arr) base h
  end.

(** [s[i] = v]; [None] is the index-out-of-range panic. *)
Definition set_index (h : heap) (s : slice) (i : nat) (v : string) : option heap :=
  match s with
  | Nil => None
  | Slice base n =>
      if decide (i < n) then Some (alter (λ arr, <[i := v]> arr) base h) else None
  end.

(** The graph with its slices in the store. *)
Record GraphMem := mkGraphMem {
  mem : heap;
  edges : gmap string slice
}.

(** [g.edges[node]] as a header: [nil] for a missing key. *)
Definition edges_at (g : GraphMem) (node : string) : slice :=
  default Nil (edges g !! node).

(** The edge map that [Update] and [FindPath] see: each header replaced by
    its elements. *)
Definition view (g : GraphMem) : Graph :=
  elems (mem g) <$> edges g.

(** [func (g *Graph) GetNeighbors(node string) []string]: the returned
    header and the store after the allocation and the copy. *)
Definition GetNeighbors (g : GraphMem) (node : string) : slice * GraphMem :=
  let neighbors := edges_at g node in
  let (result, h) := make (mem g) (len neighbors) in
  (result, mkGraphMem (copy h result neighbors) (edges g)).

(** Every stored header points into an allocated array and stays within
    it. *)
Definition well_formed (g : GraphMem) : Prop :=
  ∀ node base n, edges g !! node = Some (Slice base n) →
    ∃ arr, mem g !! base = Some arr ∧ n ≤ length arr.

(** What a caller holding [s] can do to the store by assigning to its
    elements, any number of times. *)
Inductive written_through (s : slice) : heap → heap → Prop :=
| written_none h : written_through s h h
| written_more h1 h2 h3 i v :
    written_through s h1 h2 → set_index h2 s i v = Some h3 →
    written_through s h1 h3.

End topology.

(** ** package serf *)

Module serf.

(** [serf.MemberStatus.String()] of hashicorp/serf for the four statuses
    [mapStatus] names; the table of [TestMapStatus] spells them the same
    way. *)
Definition StatusAlive : string := "alive".
Definition StatusLeaving : string := "leaving".
Definition StatusLeft : string := "left".
Definition StatusFailed : string := "failed".

Module Member.
(** [type Member struct] *)
Record t := mk {
  Name : string;
  Addr : string;
  Port : N;
  Tags : gmap string string;
  Status : string
}.
End Member.

(** *** events.go: member filters *)

(** [type MemberFilter func(m *Member) bool] *)
Definition MemberFilter := Member.t → bool.

(** [func FilterByTag(key, value string) MemberFilter].  A [nil] tag map
    and an empty one both read as [∅], and both answer [false]: the first
    by the explicit test, the second because the key is missing. *)
Definition FilterByTag (key value : string) : MemberFilter :=
  λ m, match Member.Tags m !! key with
       | Some v => bool_decide (v = value)
       | None => false
       end.

(** [func FilterByStatus(status string) MemberFilter] *)
Definition FilterByStatus (status : string) : MemberFilter :=
  λ m, bool_decide (Member.Status m = status).

(** [func FilterMembers(members []*Member, filter MemberFilter) []*Member] *)
Definition FilterMembers (members : list Member.t) (filter : MemberFilter)
    : list Member.t :=
  foldl (λ filtered m, if filter m then filtered ++ [m] else filtered) [] members.

(** [func (m *Mesh) GetMembersByTag(key, value string) []*Member], as a
    function of what [m.Members()] returns. *)
Definition GetMembersByTag (members : list Member.t) (key value : string)
    : list Member.t :=
  FilterMembers members (FilterByTag key value).

(** [func (m *Mesh) GetMembersByStatus(status string) []*Member] *)
Definition GetMembersByStatus (members : list Member.t) (status : string)
    : list Member.t :=
  FilterMembers members (FilterByStatus status).

(** *** The mesh and its event handlers *)

(** [serf.Event] by [EventType()].  A member event carries its members
    already converted field by field to [Member]; reap and query events
    have no case in [handleEvent]. *)
Inductive Event :=
| EventMemberJoin (Members : list Member.t)
| EventMemberLeave (Members : list Member.t)
| EventMemberFailed (Members : list Member.t)
| EventMemberUpdate (Members : list Member.t)
| EventMemberReap (Members : list Member.t)
| EventUser (Name : string) (Payload : list byte)
| EventQuery.

(** What the handlers write with [log.Printf]. *)
Inductive mesh_log :=
| FromGraph (line : topology.log_line)
| LogTopologyUpdatedFromNode.

Section Mesh.
(** A registered callback, [func(m *Member)]. *)
Variable Callback : Type.

(** [json.Unmarshal] as used by [Graph.Update]. *)
Variable unmarshal : list byte → option topology.TopologyEvent.

(** The fields of [type Mesh struct] the event handlers use: the member
    cache ([sync.Map], name -> member), the callbacks and the graph. *)
Record Mesh := mkMesh {
  mesh_members : gmap string Member.t;
  joinCallbacks : list Callback;
  leaveCallbacks : list Callback;
  graph : topology.Graph
}.

(** [func (m *Mesh) OnJoin(fn func(m *Member))] *)
Definition OnJoin (m : Mesh) (fn : Callback) : Mesh :=
  mkMesh (mesh_members m) (joinCallbacks m ++ [fn]) (leaveCallbacks m) (graph m).

(** [func (m *Mesh) OnLeave(fn func(m *Member))] *)
Definition OnLeave (m : Mesh) (fn : Callback) : Mesh :=
  mkMesh (mesh_members m) (joinCallbacks m) (leaveCallbacks m ++ [fn]) (graph m).

(** What a handler leaves behind besides the new state: the callback
    invocations it started with [go fn(member)], in the order of the [go]
    statements, and the lines it logged. *)
Record effects := mkEffects {
  started : list (Callback * Member.t);
  logged : list mesh_log
}.

Definition no_effects : effects := mkEffects [] [].

(** One iteration of the loop of [handleMemberJoin]. *)
Definition joinOne (acc : Mesh * list (Callback * Member.t)) (member : Member.t)
    : Mesh * list (Callback * Member.t) :=
  let m := acc.1 in
  (mkMesh (<[Member.Name member := member]> (mesh_members m))
          (joinCallbacks m) (leaveCallbacks m) (graph m),
   acc.2 ++ ((λ fn, (fn, member)) <$> joinCallbacks m)).

(** One iteration of the loop of [handleMemberLeave]. *)
Definition leaveOne (acc : Mesh * list (Callback * Member.t)) (member : Member.t)
    : Mesh * list (Callback * Member.t) :=
  let m := acc.1 in
  (mkMesh (delete (Member.Name member) (mesh_members m))
          (joinCallbacks m) (leaveCallbacks m) (graph m),
   acc.2 ++ ((λ fn, (fn, member)) <$> leaveCallbacks m)).

(** One iteration of the loop of [handleMemberUpdate]. *)
Definition updateOne (m : Mesh) (member : Member.t) : Mesh :=
  mkMesh (<[Member.Name member := member]> (mesh_members m))
         (joinCallbacks m) (leaveCallbacks m) (graph m).

(** [func (m *Mesh) handleMemberJoin(e serf.MemberEvent)] *)
Definition handleMemberJoin (m : Mesh) (members : list Member.t) : Mesh * effects :=
  let r := foldl joinOne (m, []) members in (r.1, mkEffects r.2 []).

(** [func (m *Mesh) handleMemberLeave(e serf.MemberEvent)] *)
Definition handleMemberLeave (m : Mesh) (members : list Member.t) : Mesh * effects :=
  let r := foldl leaveOne (m, []) members in (r.1, mkEffects r.2 []).

(** [func (m *Mesh) handleMemberUpdate(e serf.MemberEvent)] *)
Definition handleMemberUpdate (m : Mesh) (members : list Member.t) : Mesh * effects :=
  (foldl updateOne m members, no_effects).

(** [func (m *Mesh) handleUserEvent(e serf.UserEvent)] *)
Definition handleUserEvent (m : Mesh) (name : string) (payload : list byte)
    : Mesh * effects :=
  if decide (name = "topology") then
    let r := topology.Update unmarshal (graph m) payload in
    (mkMesh (mesh_members m) (joinCallbacks m) (leaveCallbacks m) r.1,
     mkEffects [] ((FromGraph <$> r.2) ++ [LogTopologyUpdatedFromNode]))
  else (m, no_effects).

(** [func (m *Mesh) handleEvent(e serf.Event)] *)
Definition handleEvent (m : Mesh) (e : Event) : Mesh * effects :=
  match e with
  | EventMemberJoin members => handleMemberJoin m members
  | EventMemberLeave members | EventMemberFailed members => handleMemberLeave m members
  | EventMemberUpdate members => handleMemberUpdate m members
  | EventUser name payload => handleUserEvent m name payload
  | EventMemberReap _ | EventQuery => (m, no_effects)
  end.

(** The receive branch of [processEvents], taken once for each event of
    [events] in turn. *)
Definition processEvents (m : Mesh) (events : list Event) : Mesh :=
  foldl (λ m e, (handleEvent m e).1) m events.
End Mesh.

(** *** Members *)

(** [serf.Serf.Members()] of hashicorp/serf, which this repository calls
    and does not contain.  The library keeps its members in a map from
    name to member and builds the returned list by ranging over that map,
    so a call may return the members of the table in any order, and two
    calls on the same table need not agree on it.  [table] is that map, a
    member taken as already converted to [Member]; [members] is a list the
    call can return. *)
Definition serf_Members (table : gmap string Member.t) (members : list Member.t)
    : Prop :=
  members ≡ₚ (map_to_list table).*2.

(** [func (m *Mesh) Members() []*Member]: [nil] while [m.serf] is [nil]
    ([None] here); after that what [m.serf.Members()] returns, converted
    member by member in the order returned. *)
Definition Members (serf : option (gmap string Member.t))
    (members : list Member.t) : Prop :=
  match serf with
  | None => members = []
  | Some table => serf_Members table members
  end.

End serf.

(** ** package api *)

Module api.
Import topology serf.

(** [observerv1.ServiceStatus] (generated code; the UI switches over the
    same four values). *)
Inductive ServiceStatus :=
| SERVICE_STATUS_UNSPECIFIED
| SERVICE_STATUS_HEALTHY
| SERVICE_STATUS_UNHEALTHY
| SERVICE_STATUS_UNKNOWN.

Module Service.
(** [observerv1.Service], without [Resources], which the builder never
    sets. *)
Record t := mk {
  Name : string;
  Type_ : string;
  Address : string;
  NodeName : string;
  Upstreams : list string;
  Status : ServiceStatus;
  Tags : gmap string string
}.
End Service.

Module ServiceInfo.
(** [type ServiceInfo struct] *)
Record t := mk {
  Name : string;
  Type_ : string;
  Address : string;
  Upstreams : list string
}.
End ServiceInfo.

(** [observerv1.Topology] *)
Record Topology := mkTopology {
  Services : list Service.t;
  Timestamp : Z
}.

(** [connect.Code], the three codes the router uses. *)
Inductive Code :=
| CodeNotFound
| CodeUnavailable
| CodeInternal.

(** [func mapStatus(status string) observerv1.ServiceStatus] *)
Definition mapStatus (status : string) : ServiceStatus :=
  if decide (status = StatusAlive) then SERVICE_STATUS_HEALTHY
  else if decide (status = StatusLeaving ∨ status = StatusLeft) then SERVICE_STATUS_UNHEALTHY
  else if decide (status = StatusFailed) then SERVICE_STATUS_UNHEALTHY
  else SERVICE_STATUS_UNKNOWN.

(** The request the router sends to the entry node: the URL and the three
    fields of [reqBody]. *)
Record ForwardRequest := mkForward {
  serviceURL : string;
  serviceName : string;
  path : list string;
  currentHop : Z
}.

(** What the outbound call comes to: [json.Marshal] or
    [http.NewRequestWithContext] failed, [http.DefaultClient.Do] failed,
    or a response arrived. *)
Inductive post_outcome :=
| RequestError
| ConnectError
| Response (StatusCode : Z) (Body : string).

Section Observer.
(** [json.Unmarshal([]byte(servicesJSON), &serviceInfos)]; [None] is a
    returned error. *)
Variable unmarshalServices : string → option (list ServiceInfo.t).

(** [observerv1.Resource], and the decoding of a response body into the
    flattened resource list; [None] is a decoding error. *)
Variable Resource : Type.
Variable decodeResources : string → option (list Resource).

(** The network. *)
Variable post : ForwardRequest → post_outcome.

(** How [GetServiceResources] ends. *)
Inductive result :=
| Panicked
| Err (code : Code)
| Ok (resources : list Resource).

(** [member.Tags[key]]: the empty string for a missing key. *)
Definition tag (member : Member.t) (key : string) : string :=
  default "" (Member.Tags member !! key).

(** One iteration of [for _, info := range serviceInfos]. *)
Definition appendInfo (member : Member.t) (services : list Service.t)
    (info : ServiceInfo.t) : list Service.t :=
  services ++ [Service.mk (ServiceInfo.Name info) (ServiceInfo.Type_ info)
                 (ServiceInfo.Address info) (Member.Name member)
                 (ServiceInfo.Upstreams info) (mapStatus (Member.Status member))
                 (Member.Tags member)].

(** One iteration of [for _, member := range members] of [buildTopology]. *)
Definition appendMember (services : list Service.t) (member : Member.t)
    : list Service.t :=
  match Member.Tags member !! "services" with
  | Some servicesJSON =>
      match unmarshalServices servicesJSON with
      | None => services
      | Some serviceInfos => foldl (appendInfo member) services serviceInfos
      end
  | None =>
      if decide (tag member "service_type" ≠ "") then
        services ++ [Service.mk (tag member "service_name") (tag member "service_type")
                       (Member.Addr member) (Member.Name member) []
                       (mapStatus (Member.Status member)) (Member.Tags member)]
      else services
  end.

(** [func (s *ObserverService) buildTopology() *observerv1.Topology],
    as a function of what it reads: [s.mesh.Members()] and
    [time.Now().UnixMilli()]. *)
Definition buildTopology (members : list Member.t) (now : Z) : Topology :=
  mkTopology (foldl appendMember [] members) now.

(** The first loop of [GetServiceResources]. *)
Definition findService (services : list Service.t) (name : string)
    : option Service.t :=
  find (λ svc, bool_decide (Service.Name svc = name)) services.

(** The second loop: the address of the first service hosted on
    [entryNode], or the empty string. *)
Definition entryAddress (services : list Service.t) (entryNode : string) : string :=
  match find (λ svc, bool_decide (Service.NodeName svc = entryNode)) services with
  | Some svc => Service.Address svc
  | None => ""
  end.

(** [GetServiceResources] up to the request it is about to send. *)
Inductive routed :=
| RoutePanicked
| RouteErr (code : Code)
| Forward (req : ForwardRequest).

Definition route (topology : Topology) (graph : Graph) (name : string) : routed :=
  match findService (Services topology) name with
  | None => RouteErr CodeNotFound
  | Some targetService =>
      match FindPath graph "heimdall" (Service.NodeName targetService) with
      | Panic => RoutePanicked
      | Return None => RouteErr CodeUnavailable
      | Return (Some path) =>
          match path with
          | _ :: entryNode :: _ =>
              let entryAddr := entryAddress (Services topology) entryNode in
              if decide (entryAddr = "") then RouteErr CodeInternal
              else Forward (mkForward
                     ("http://" +:+ entryAddr +:+ "/meta.v1.LokiMetaService/GetResources")
                     name (drop 1 path) 0)
          | _ => RouteErr CodeInternal
          end
      end
  end.

(** [GetServiceResources] from the request on. *)
Definition forward (req : ForwardRequest) : result :=
  match post req with
  | RequestError => Err CodeInternal
  | ConnectError => Err CodeUnavailable
  | Response StatusCode Body =>
      if decide (StatusCode ≠ 200%Z) then Err CodeInternal
      else match decodeResources Body with
           | None => Err CodeInternal
           | Some resources => Ok resources
           end
  end.

(** [func (s *ObserverService) GetServiceResources(ctx, req)], as a
    function of the membership snapshot, the clock, the graph and the
    requested name. *)
Definition GetServiceResources (members : list Member.t) (now : Z)
    (graph : Graph) (name : string) : result :=
  match route (buildTopology members now) graph name with
  | RoutePanicked => Panicked
  | RouteErr code => Err code
  | Forward req => forward req
  end.

(** *** The live distribution hub *)

(** [observerv1.UpdateType]; the hub only ever sends full snapshots. *)
Inductive UpdateType :=
| UPDATE_TYPE_FULL.

(** [observerv1.TopologyUpdate] *)
Record TopologyUpdate := mkUpdate {
  update_Topology : Topology;
  update_Type : UpdateType
}.

(** A buffered channel of updates, [chan *observerv1.TopologyUpdate], at a
    moment when no receiver is waiting on it: its capacity and what is
    queued, oldest first. *)
Record channel := mkChannel {
  capacity : nat;
  buffer : list TopologyUpdate
}.

(** [select { case ch <- update: default: }]: the send goes through when
    the buffer has room and is skipped otherwise. *)
Definition trySend (update : TopologyUpdate) (ch : channel) : channel :=
  if decide (length (buffer ch) < capacity ch)
  then mkChannel (capacity ch) (buffer ch ++ [update])
  else ch.

(** [<-updateCh] in [WatchTopology]: the oldest queued update, if any. *)
Definition receive (ch : channel) : option (TopologyUpdate * channel) :=
  match buffer ch with
  | [] => None
  | update :: rest => Some (update, mkChannel (capacity ch) rest)
  end.

(** [watchers map[chan *observerv1.TopologyUpdate]struct{}]: the
    registered channels by identity. *)
Abbreviation watcher_set := (gmap positive channel).

(** [WatchTopology] from [make(chan ..., 10)] to the registration: a new
    channel, entered into the set. *)
Definition register (watchers : watcher_set) : positive * watcher_set :=
  let updateCh := fresh (dom watchers) in
  (updateCh, <[updateCh := mkChannel 10 []]> watchers).

(** The deferred clean-up of [WatchTopology]. *)
Definition unregister (updateCh : positive) (watchers : watcher_set) : watcher_set :=
  delete updateCh watchers.

(** [func (s *ObserverService) notifyWatchers()], as a function of the
    watcher set and of what [buildTopology] reads.  The sends to different
    channels do not depend on each other, so the order in which the map is
    ranged over does not show. *)
Definition notifyWatchers (watchers : watcher_set) (members : list Member.t)
    (now : Z) : watcher_set :=
  if decide (size watchers = 0) then watchers
  else trySend (mkUpdate (buildTopology members now) UPDATE_TYPE_FULL) <$> watchers.

(** [func (s *ObserverService) GetTopology(ctx, req)]: the response
    message; the error result is always [nil]. *)
Definition GetTopology (members : list Member.t) (now : Z) : Topology :=
  buildTopology members now.

(** [func (s *ObserverService) buildTopology() *observerv1.Topology] with
    the reads it makes itself: [topology] is a value the method can return
    when the mesh is in state [serf] and the clock shows [now], namely the
    build over some list that [s.mesh.Members()] can return. *)
Definition buildTopology_reads (serf : option (gmap string Member.t)) (now : Z)
    (topology : Topology) : Prop :=
  ∃ members, Members serf members ∧ topology = buildTopology members now.
End Observer.

End api.

Import topology serf api.

(** * Vocabulary of the properties *)

(** The adjacency map is symmetric: every stored edge has its reverse. *)
Definition symmetric (g : Graph) : Prop :=
  ∀ a b, b ∈ edges_of g a → a ∈ edges_of g b.

Section UpdateVocabulary.
Variable unmarshal : list byte → option TopologyEvent.

(** Along a run of [Update] calls from [g], no announcement leaves out a
    neighbor that is stored for the announcing node when it arrives. *)
Fixpoint drops_nothing (g : Graph) (payloads : list (list byte)) : Prop :=
  match payloads with
  | [] => True
  | d :: rest =>
      (∀ event, unmarshal d = Some event →
         ∀ b, b ∈ edges_of g (Node event) → b ∈ Neighbors event) ∧
      drops_nothing (Update unmarshal g d).1 rest
  end.
End UpdateVocabulary.

(** [x] is the first element of [l] that satisfies [P]. *)
Definition first_where {A} (P : A → Prop) (l : list A) (x : A) : Prop :=
  ∃ before after, l = before ++ x :: after ∧ P x ∧ ∀ y, y ∈ before → ¬ P y.

Section BuilderVocabulary.
Variable unmarshalServices : string → option (list ServiceInfo.t).

(** The services one membership record contributes. *)
Definition derived (member : Member.t) : list Service.t :=
  appendMember unmarshalServices [] member.
End BuilderVocabulary.

(** Consecutive elements of [p] are joined by recorded edges. *)
Fixpoint chain (g : Graph) (p : list string) : Prop :=
  match p with
  | u :: rest => match rest with
                 | v :: _ => v ∈ edges_of g u ∧ chain g rest
                 | [] => True
                 end
  | [] => True
  end.

(** [p] is a path from [a] to [b] along recorded edges. *)
Definition connects (g : Graph) (a b : string) (p : list string) : Prop :=
  head p = Some a ∧ last p = Some b ∧ chain g p.

(** Paths from [a] as the search grows them: by one node at the end. *)
Inductive walk (g : Graph) (a : string) : list string → string → Prop :=
| walk_start : walk g a [a] a
| walk_step p x y : walk g a p x → y ∈ edges_of g x → walk g a (p ++ [y]) y.

(** [reach g to a k x]: [x] is [k] edges away from [a] along a path whose
    nodes all differ from [to]. *)
Inductive reach (g : Graph) (to a : string) : nat → string → Prop :=
| reach_start : reach g to a 0 a
| reach_step k x y :
    reach g to a k x → y ∈ edges_of g x → y ≠ to → reach g to a (S k) y.

Section SearchVocabulary.
Variable g : Graph.
Variables a to : string.

(** The state of the search between two iterations of the outer loop,
    with [d] the number of edges of the shortest queued paths. *)
Record search_inv (d : nat) (queue : list (list string)) (visited : gset string)
    : Prop := mkInv {
  (** queued paths are walks from [a] *)
  inv_walks : ∀ p, p ∈ queue → ∃ x, walk g a p x;
  (** the target is never marked *)
  inv_target : to ∉ visited;
  (** the queue holds paths of [d] edges, then paths of [d+1] edges *)
  inv_levels : ∃ now next, queue = now ++ next ∧
                 (∀ p, p ∈ now → length p = S d) ∧
                 (∀ p, p ∈ next → length p = S (S d));
  (** everything within [d] edges, clear of [to], is marked *)
  inv_near : ∀ k x, reach g to a k x → k ≤ d → x ∈ visited;
  (** a queued path is no longer than any way to its end *)
  inv_short : ∀ p x k, p ∈ queue → last p = Some x → reach g to a k x →
                length p ≤ S k;
  (** a marked node that is no longer queued has been expanded: its
      neighbors are marked and none is the target *)
  inv_expanded : ∀ v, v ∈ visited → (∀ p, p ∈ queue → last p ≠ Some v) →
                   ∀ u, u ∈ edges_of g v → u ≠ to ∧ u ∈ visited
}.
End SearchVocabulary.

(** Equality of service statuses is decidable. *)
#[global] Instance ServiceStatus_eq_dec : EqDecision ServiceStatus.
Proof. solve_decision. Defined.

(** The service [buildTopology] makes of one decoded [ServiceInfo] of
    [member]. *)
Definition service_of_info (member : Member.t) (info : ServiceInfo.t) : Service.t :=
  Service.mk (ServiceInfo.Name info) (ServiceInfo.Type_ info)
    (ServiceInfo.Address info) (Member.Name member) (ServiceInfo.Upstreams info)
    (mapStatus (Member.Status member)) (Member.Tags member).

(** The member carries one of the two tag formats. *)
Definition tagged (member : Member.t) : Prop :=
  is_Some (Member.Tags member !! "services") ∨ tag member "service_type" ≠ "".

(** The payloads of the user events named [topology], in order. *)
Definition topology_payloads (events : list Event) : list (list byte) :=
  events ≫= (λ e, match e with
                  | EventUser name payload =>
                      if decide (name = "topology") then [payload] else []
                  | _ => []
                  end).

(** The update the hub sends for a membership snapshot read at [now]. *)
Definition full_update (unmarshalServices : string → option (list ServiceInfo.t))
    (snapshot : list Member.t * Z) : TopologyUpdate :=
  mkUpdate (buildTopology unmarshalServices snapshot.1 snapshot.2) UPDATE_TYPE_FULL.

(** [notifyWatchers] called once for each snapshot in turn. *)
Definition notifications (unmarshalServices : string → option (list ServiceInfo.t))
    (watchers : gmap positive channel) (snapshots : list (list Member.t * Z)) : gmap positive channel :=
  foldl (λ ws snapshot, notifyWatchers unmarshalServices ws snapshot.1 snapshot.2)
        watchers snapshots.

(** * Sample data for closed examples *)

(** A decoder for closed examples: the first byte names the node, the
    remaining bytes name its neighbors, and the empty payload does not
    parse. *)
Definition name_of (b : byte) : string := String (Ascii.ascii_of_byte b) "".

Definition sample_unmarshal (d : list byte) : option TopologyEvent :=
  match d with
  | [] => None
  | n :: nbs => Some (mkEvent (name_of n) (name_of <$> nbs))
  end.

(** A decoder for closed examples: it knows one payload, a node that hosts
    an [api] service without an address and a [db] service with one. *)
Definition sample_unmarshalServices (s : string) : option (list ServiceInfo.t) :=
  if decide (s = "api-and-db") then
    Some [ServiceInfo.mk "api" "http" "" [];
          ServiceInfo.mk "db" "postgres" "10.0.0.2:5432" ["api"]]
  else None.

(** A network for closed examples: nothing answers. *)
Definition sample_post (req : ForwardRequest) : post_outcome := ConnectError.

Definition sample_decodeResources (body : string) : option (list unit) := Some [].

(** A node with the legacy tag pair. *)
Definition legacy_member (name status : string) : Member.t :=
  Member.mk name "10.0.0.1" 7946
    (<["service_name" := "api"]> (<["service_type" := "http"]> ∅)) status.

(** A node [n1] with the structured tag. *)
Definition multi_member : Member.t :=
  Member.mk "n1" "10.0.0.1" 7946 (<["services" := "api-and-db"]> ∅) "alive".

(** A graph in the store: [a] lists [b] and [c], [b] lists [a]. *)
Definition sample_graph_mem : GraphMem :=
  mkGraphMem (<[1%positive := ["b"; "c"]]> (<[2%positive := ["a"]]> ∅))
             (<["a" := Slice 1 2]> (<["b" := Slice 2 1]> ∅)).

(** [a] reaches [e] through [c]; nothing leads to [z]. *)
Definition sample_graph : Graph :=
  <["a" := ["b"; "c"]]> (<["b" := ["d"]]> (<["c" := ["d"; "e"]]> NewGraph)).

(** The member table of a mesh with two nodes, each with the legacy tag
    pair. *)
Definition sample_table : gmap string Member.t :=
  <["n1" := legacy_member "n1" "alive"]>
    (<["n2" := legacy_member "n2" "alive"]> ∅).

(** A network for closed examples: every request is answered with status
    200. *)
Definition sample_post_ok (req : ForwardRequest) : post_outcome :=
  Response 200 "resources".

(** The observer with a direct edge to [n1]. *)
Definition sample_route_graph : Graph :=
  <["heimdall" := ["n1"]]> (<["n1" := ["heimdall"]]> NewGraph).

(** A mesh that has cached no member, with one join callback and one leave
    callback, named by numbers. *)
Definition sample_mesh : Mesh nat :=
  mkMesh nat ∅ [1] [2] NewGraph.


(** * Properties of the connectivity graph *)

Section GraphFacts.

Lemma found_in_spec (node : string) (existing : list string) :
  found_in node existing = true ↔ node ∈ existing.
Proof.
  induction existing as [|n rest IH]; simpl.
  - split; [discriminate|]. by intros ?%elem_of_nil.
  - rewrite elem_of_cons. destruct (decide (n = node)) as [->|Hne].
    + tauto.
    + rewrite IH. split; [tauto|]. intros [?|?]; [congruence|done].
Qed.

Lemma edges_of_insert (g : Graph) (k x : string) (l : list string) :
  edges_of (<[k := l]> g) x = if decide (k = x) then l else edges_of g x.
Proof.
  unfold edges_of. rewrite lookup_insert. by destruct (decide (k = x)).
Qed.

(** What one back-fill step does to the list read at [x]. *)
Lemma edges_of_backfill (node : string) (g : Graph) (neighbor x : string) :
  edges_of (backfill node g neighbor) x =
    if decide (x = neighbor ∧ node ∉ edges_of g neighbor)
    then edges_of g neighbor ++ [node] else edges_of g x.
Proof.
  unfold backfill.
  destruct (found_in node (edges_of g neighbor)) eqn:Hf.
  - apply found_in_spec in Hf. by rewrite decide_False by tauto.
  - assert (node ∉ edges_of g neighbor) as Hnot.
    { intros Hin%found_in_spec. congruence. }
    rewrite edges_of_insert. destruct (decide (neighbor = x)) as [->|Hne].
    + by rewrite decide_True.
    + rewrite decide_False; [done|]. intros [-> _]. done.
Qed.

(** What the whole back-fill loop does to the list read at [x]. *)
Lemma edges_of_backfill_all (node : string) (neighbors : list string)
    (g : Graph) (x : string) :
  edges_of (foldl (backfill node) g neighbors) x =
    if decide (x ∈ neighbors ∧ node ∉ edges_of g x)
    then edges_of g x ++ [node] else edges_of g x.
Proof.
  revert g. induction neighbors as [|nb rest IH]; intros g; cbn [foldl].
  - rewrite decide_False; [done|]. intros [?%elem_of_nil _]. done.
  - rewrite IH, !edges_of_backfill.
    destruct (decide (x = nb)) as [->|Hne].
    + destruct (decide (node ∈ edges_of g nb)) as [Hin|Hnin].
      * rewrite (decide_False (P := nb = nb ∧ _)) by tauto.
        rewrite decide_False by tauto. rewrite decide_False by tauto. done.
      * rewrite (decide_True (P := nb = nb ∧ _)) by tauto.
        rewrite decide_False.
        -- rewrite decide_True; [done|]. split; [left|done].
        -- intros [_ Hn]. apply Hn, elem_of_app. right. left.
    + rewrite (decide_False (P := x = nb ∧ _)) by tauto.
      destruct (decide (x ∈ rest ∧ node ∉ edges_of g x)) as [[? ?]|Hno].
      * rewrite decide_True; [done|]. split; [by right|done].
      * rewrite decide_False; [done|]. rewrite elem_of_cons. tauto.
Qed.

(** The back-fill loop leaves the announcing node's own entry alone, as
    long as a self-loop, if announced, is already stored. *)
Lemma lookup_backfill_all_self (node : string) (neighbors : list string) (g : Graph) :
  (node ∈ neighbors → node ∈ edges_of g node) →
  foldl (backfill node) g neighbors !! node = g !! node.
Proof.
  revert g. induction neighbors as [|nb rest IH]; intros g Hself; cbn [foldl]; [done|].
  destruct (decide (nb = node)) as [->|Hne].
  - assert (backfill node g node = g) as ->.
    { unfold backfill.
      destruct (found_in node (edges_of g node)) eqn:Hf; [done|].
      exfalso. assert (found_in node (edges_of g node) = true); [|congruence].
      apply found_in_spec, Hself. left. }
    apply IH. intros _. apply Hself. left.
  - rewrite IH.
    + unfold backfill. destruct (found_in node (edges_of g nb)); [done|].
      by rewrite lookup_insert_ne.
    + intros Hin. rewrite edges_of_backfill, decide_False by (intros [? _]; congruence).
      apply Hself. by right.
Qed.

Lemma store_lookup_self (event : TopologyEvent) (g : Graph) :
  store event g !! Node event = Some (Neighbors event).
Proof.
  unfold store. rewrite lookup_backfill_all_self.
  - apply lookup_insert_eq.
  - intros Hin. by rewrite edges_of_insert, decide_True.
Qed.

Lemma edges_of_store_self (event : TopologyEvent) (g : Graph) :
  edges_of (store event g) (Node event) = Neighbors event.
Proof. unfold edges_of. by rewrite store_lookup_self. Qed.

Lemma edges_of_store_other (event : TopologyEvent) (g : Graph) (x : string) :
  x ≠ Node event →
  edges_of (store event g) x =
    if decide (x ∈ Neighbors event ∧ Node event ∉ edges_of g x)
    then edges_of g x ++ [Node event] else edges_of g x.
Proof.
  intros Hne. unfold store.
  rewrite edges_of_backfill_all, edges_of_insert.
  by rewrite (decide_False (P := Node event = x)) by congruence.
Qed.

(** After the body of [Update], every announced neighbor lists the
    announcing node. *)
Lemma store_reverse (event : TopologyEvent) (g : Graph) (b : string) :
  b ∈ Neighbors event → Node event ∈ edges_of (store event g) b.
Proof.
  intros Hb. destruct (decide (b = Node event)) as [->|Hne].
  - by rewrite edges_of_store_self.
  - rewrite edges_of_store_other by done.
    destruct (decide (Node event ∈ edges_of g b)) as [Hin|Hnin].
    + by rewrite decide_False by tauto.
    + rewrite decide_True by tauto. apply elem_of_app. right. left.
Qed.

(** The body of [Update] keeps a symmetric map symmetric when the
    announcement drops no stored neighbor of the announcing node. *)
Lemma store_symmetric (event : TopologyEvent) (g : Graph) :
  symmetric g →
  (∀ b, b ∈ edges_of g (Node event) → b ∈ Neighbors event) →
  symmetric (store event g).
Proof.
  intros Hsym Hkeep a b Hab.
  destruct (decide (a = Node event)) as [->|Ha].
  - rewrite edges_of_store_self in Hab. by apply store_reverse.
  - rewrite edges_of_store_other in Hab by done.
    destruct (decide (b = Node event)) as [->|Hb].
    + rewrite edges_of_store_self.
      destruct (decide (a ∈ Neighbors event ∧ Node event ∉ edges_of g a)) as [[? ?]|Hno];
        [done|].
      apply Hkeep, Hsym, Hab.
    + assert (b ∈ edges_of g a) as Hab'.
      { destruct (decide (a ∈ Neighbors event ∧ Node event ∉ edges_of g a)); [|done].
        apply elem_of_app in Hab as [?|Hx]; [done|].
        apply list_elem_of_singleton in Hx. done. }
      apply Hsym in Hab'. rewrite edges_of_store_other by done.
      destruct (decide (b ∈ Neighbors event ∧ Node event ∉ edges_of g b)); [|done].
      apply elem_of_app. by left.
Qed.

End GraphFacts.

Section UpdateFacts.
Variable unmarshal : list byte → option TopologyEvent.
Local Abbreviation drops_nothing := (drops_nothing unmarshal).

Lemma updates_symmetric (payloads : list (list byte)) (g : Graph) :
  symmetric g → drops_nothing g payloads →
  symmetric (updates unmarshal g payloads).
Proof.
  revert g. induction payloads as [|d rest IH]; intros g Hsym Hkeep; [done|].
  destruct Hkeep as [Hd Hrest]. cbn [updates foldl]. apply IH; [|done].
  unfold Update in *. destruct (unmarshal d) as [event|]; [|done].
  apply store_symmetric; [done|]. by apply Hd.
Qed.

(** C1 (amended): right after an [Update] whose payload parses to node
    [n] with neighbors [nbs], every [b] in [nbs] is in [n]'s stored list
    and [n] is in [b]'s stored list; and after a run of [Update] calls on
    a new graph in which no announcement drops a neighbor stored for its
    node, the whole adjacency map is symmetric. *)
Theorem Update_announced_edges_both_ways :
  (∀ g d event, unmarshal d = Some event →
     ∀ b, b ∈ Neighbors event →
       b ∈ edges_of (Update unmarshal g d).1 (Node event) ∧
       Node event ∈ edges_of (Update unmarshal g d).1 b) ∧
  (∀ payloads, drops_nothing NewGraph payloads →
     symmetric (updates unmarshal NewGraph payloads)).
Proof.
  split.
  - intros g d event Hd b Hb. unfold Update. rewrite Hd. cbn [fst].
    split; [by rewrite edges_of_store_self|by apply store_reverse].
  - intros payloads Hkeep. apply updates_symmetric; [|done].
    intros a b Hab. unfold edges_of, NewGraph in Hab.
    rewrite lookup_empty in Hab. by apply elem_of_nil in Hab.
Qed.

(** C4: when the payload does not parse, [Update] returns normally with
    the edge map exactly as it was; all that happens is one log line, and
    there is no error value for a caller to see. *)
Theorem Update_malformed_ignored (g : Graph) (d : list byte) :
  unmarshal d = None → Update unmarshal g d = (g, [LogParseFailure]).
Proof. intros Hd. unfold Update. by rewrite Hd. Qed.

(** C9: after an [Update] whose payload parses to node [n] with neighbors
    [nbs], the stored entry of [n] is exactly [nbs]; whatever was recorded
    for [n] before, back-filled or announced, and is not in [nbs] is gone
    from [n]'s entry. *)
Theorem Update_last_write_wins (g : Graph) (d : list byte) (n : string)
    (nbs : list string) :
  unmarshal d = Some (mkEvent n nbs) →
  (Update unmarshal g d).1 !! n = Some nbs ∧
  ∀ b, b ∈ edges_of g n → b ∉ nbs → b ∉ edges_of (Update unmarshal g d).1 n.
Proof.
  intros Hd. unfold Update. rewrite Hd. cbn [fst].
  pose proof (store_lookup_self (mkEvent n nbs) g) as Hself.
  change (store (mkEvent n nbs) g !! n = Some nbs) in Hself.
  split; [done|]. intros b _ Hb. unfold edges_of. by rewrite Hself.
Qed.
End UpdateFacts.

(** [a] announces [b] and [c]: the reverse edges are back-filled. *)
Example Update_sample_backfill :
  (Update sample_unmarshal NewGraph [x61; x62; x63]%byte).1
    = <["a" := ["b"; "c"]]> (<["b" := ["a"]]> (<["c" := ["a"]]> NewGraph)).
Proof. vm_compute. reflexivity. Qed.

(** C6: [FindPath(x, x)] is the one-element path [[x]], whatever the graph
    holds. *)
Theorem FindPath_self (g : Graph) (x : string) :
  FindPath g x x = Return (Some [x]).
Proof. unfold FindPath. by rewrite decide_True. Qed.

(** C1 as stated fails: [a] announces [b], then [a] announces no neighbors;
    [b] still lists [a], and [a] no longer lists [b]. *)
Lemma Update_symmetry_broken_by_overwrite :
  ¬ (∀ (unmarshal : list byte → option TopologyEvent) (payloads : list (list byte)),
       Forall (λ d, is_Some (unmarshal d)) payloads →
       symmetric (updates unmarshal NewGraph payloads)).
Proof.
  intros Hall.
  specialize (Hall sample_unmarshal [[x61; x62]; [x61]]%byte).
  assert (edges_of (updates sample_unmarshal NewGraph [[x61; x62]; [x61]]%byte) "b"
          = ["a"]) as Hb by (vm_compute; reflexivity).
  assert (edges_of (updates sample_unmarshal NewGraph [[x61; x62]; [x61]]%byte) "a"
          = []) as Ha by (vm_compute; reflexivity).
  assert (symmetric (updates sample_unmarshal NewGraph [[x61; x62]; [x61]]%byte)) as Hsym.
  { apply Hall. repeat constructor; by eexists. }
  specialize (Hsym "b" "a"). rewrite Hb, Ha in Hsym.
  eapply elem_of_nil, Hsym. left.
Qed.

Lemma Update_announced_edges_both_ways_witness :
  sample_unmarshal [x61; x62]%byte = Some (mkEvent "a" ["b"]) ∧
  "b" ∈ Neighbors (mkEvent "a" ["b"]) ∧
  drops_nothing sample_unmarshal NewGraph [[x61; x62]; [x62; x61; x63]]%byte ∧
  ("b" ∈ edges_of (Update sample_unmarshal NewGraph [x61; x62]%byte).1 "a" ∧
   "a" ∈ edges_of (Update sample_unmarshal NewGraph [x61; x62]%byte).1 "b") ∧
  symmetric (updates sample_unmarshal NewGraph [[x61; x62]; [x62; x61; x63]]%byte).
Proof.
  assert (drops_nothing sample_unmarshal NewGraph [[x61; x62]; [x62; x61; x63]]%byte) as Hkeep.
  { cbn [drops_nothing]. split; [|split; [|done]].
    - intros event _ b Hb. vm_compute in Hb. by apply elem_of_nil in Hb.
    - intros event [= <-] b Hb. vm_compute in Hb. vm_compute.
      apply list_elem_of_singleton in Hb as ->. left. }
  split; [reflexivity|]. split; [left|]. split; [exact Hkeep|].
  destruct (Update_announced_edges_both_ways sample_unmarshal) as [Hone Hrun].
  split.
  - apply (Hone NewGraph [x61; x62]%byte (mkEvent "a" ["b"])); [reflexivity|left].
  - apply Hrun, Hkeep.
Defined.

Lemma Update_malformed_ignored_witness :
  sample_unmarshal [] = None ∧
  Update sample_unmarshal (<["a" := ["b"]]> (<["b" := ["a"]]> NewGraph)) []
    = (<["a" := ["b"]]> (<["b" := ["a"]]> NewGraph), [LogParseFailure]).
Proof.
  split; [reflexivity|]. by apply Update_malformed_ignored.
Defined.

(** [a] announces [b], which back-fills [a] into [b]'s entry; then [b]
    announces [c] alone. *)
Lemma Update_last_write_wins_witness :
  let g := (Update sample_unmarshal NewGraph [x61; x62]%byte).1 in
  sample_unmarshal [x62; x63]%byte = Some (mkEvent "b" ["c"]) ∧
  "a" ∈ edges_of g "b" ∧ ("a" ∉ ["c"]) ∧
  (Update sample_unmarshal g [x62; x63]%byte).1 !! "b" = Some ["c"] ∧
  "a" ∉ edges_of (Update sample_unmarshal g [x62; x63]%byte).1 "b".
Proof.
  intros g.
  assert ("a" ∈ edges_of g "b") as Hin by (vm_compute; left).
  assert ("a" ∉ ["c"]) as Hnot by (intros [=]%list_elem_of_singleton).
  destruct (Update_last_write_wins sample_unmarshal g [x62; x63]%byte "b" ["c"])
    as [Hentry Hgone]; [reflexivity|].
  split; [reflexivity|]. split; [exact Hin|]. split; [exact Hnot|].
  split; [exact Hentry|]. by apply Hgone.
Defined.

(** * Properties of the topology builder and the resource router *)

Lemma find_first_where {A} (P : A → Prop) `{∀ x, Decision (P x)} (l : list A) (x : A) :
  first_where P l x → find (λ y, bool_decide (P y)) l = Some x.
Proof.
  intros (before & after & -> & Hx & Hbefore).
  induction before as [|y before IH]; simpl.
  - by rewrite bool_decide_eq_true_2.
  - rewrite bool_decide_eq_false_2; [|apply Hbefore; left].
    apply IH. intros z Hz. apply Hbefore. by right.
Qed.

Lemma find_none_where {A} (P : A → Prop) `{∀ x, Decision (P x)} (l : list A) :
  (∀ y, y ∈ l → ¬ P y) → find (λ y, bool_decide (P y)) l = None.
Proof.
  induction l as [|y l IH]; intros Hl; simpl; [done|].
  rewrite bool_decide_eq_false_2; [|apply Hl; left].
  apply IH. intros z Hz. apply Hl. by right.
Qed.

Section ObserverFacts.
Variable unmarshalServices : string → option (list ServiceInfo.t).
Variable Resource : Type.
Variable decodeResources : string → option (list Resource).
Variable post : ForwardRequest → post_outcome.
Local Abbreviation derived := (derived unmarshalServices).

Lemma appendInfo_all (member : Member.t) (infos : list ServiceInfo.t)
    (services : list Service.t) :
  foldl (appendInfo member) services infos =
    services ++ foldl (appendInfo member) [] infos.
Proof.
  revert services. induction infos as [|info infos IH]; intros services; cbn [foldl].
  - by rewrite app_nil_r.
  - rewrite IH, (IH (appendInfo member [] info)). unfold appendInfo.
    by rewrite app_nil_l, app_assoc.
Qed.

Lemma appendMember_derived (services : list Service.t) (member : Member.t) :
  appendMember unmarshalServices services member = services ++ derived member.
Proof.
  unfold derived, appendMember.
  destruct (Member.Tags member !! "services") as [servicesJSON|].
  - destruct (unmarshalServices servicesJSON) as [infos|].
    + apply appendInfo_all.
    + by rewrite app_nil_r.
  - destruct (decide (tag member "service_type" ≠ "")); [done|by rewrite app_nil_r].
Qed.

Lemma buildTopology_services (members : list Member.t) (now : Z) :
  Services (buildTopology unmarshalServices members now) =
    concat (derived <$> members).
Proof.
  unfold buildTopology. cbn [Services].
  assert (∀ services, foldl (appendMember unmarshalServices) services members
                      = services ++ concat (derived <$> members)) as Hgen.
  { induction members as [|member rest IH]; intros services; cbn [foldl].
    - by rewrite app_nil_r.
    - rewrite IH, appendMember_derived. cbn. by rewrite app_assoc. }
  apply (Hgen []).
Qed.

Lemma derived_status (member : Member.t) (svc : Service.t) :
  svc ∈ derived member →
  Service.Status svc = mapStatus (Member.Status member) ∧
  Service.NodeName svc = Member.Name member.
Proof.
  unfold derived, appendMember.
  destruct (Member.Tags member !! "services") as [servicesJSON|].
  - destruct (unmarshalServices servicesJSON) as [infos|];
      [|by intros ?%elem_of_nil].
    induction infos as [|info infos IH] using rev_ind; [by intros ?%elem_of_nil|].
    rewrite foldl_app. cbn [foldl]. unfold appendInfo at 1.
    intros [Hin|Hin%list_elem_of_singleton]%elem_of_app; [by apply IH|].
    by subst svc.
  - destruct (decide (tag member "service_type" ≠ "")); [|by intros ?%elem_of_nil].
    rewrite app_nil_l. intros ->%list_elem_of_singleton. done.
Qed.

Lemma concat_fmap_Permutation {A B} (f : A → list B) (l1 l2 : list A) :
  l1 ≡ₚ l2 → concat (f <$> l1) ≡ₚ concat (f <$> l2).
Proof.
  induction 1 as [|x l1 l2 _ IH|x y l|l1 l2 l3 _ IH1 _ IH2]; cbn.
  - done.
  - by rewrite IH.
  - by rewrite !app_assoc, (Permutation_app_comm (f y) (f x)).
  - by rewrite IH1.
Qed.

(** C5 (amended): two invocations of the topology build on the same
    membership table produce service lists that hold the same services,
    identical in every field and each as often, though not always in the
    same order: one list is a permutation of the other.  Each topology
    carries the clock value of its own build.  When [Members()] returns
    the members in the same order for both builds, the two service lists
    are identical in order too. *)
Theorem buildTopology_same_services :
  (∀ serf now1 now2 topology1 topology2,
     buildTopology_reads unmarshalServices serf now1 topology1 →
     buildTopology_reads unmarshalServices serf now2 topology2 →
     Services topology1 ≡ₚ Services topology2 ∧
     Timestamp topology1 = now1 ∧ Timestamp topology2 = now2) ∧
  (∀ members now1 now2,
     Services (buildTopology unmarshalServices members now1) =
       Services (buildTopology unmarshalServices members now2)).
Proof.
  split.
  - intros serf now1 now2 topology1 topology2 (members1 & Hread1 & ->)
      (members2 & Hread2 & ->).
    split; [|done]. rewrite !buildTopology_services.
    apply concat_fmap_Permutation.
    destruct serf as [table|]; cbn in Hread1, Hread2.
    + unfold serf_Members in *. by rewrite Hread1, Hread2.
    + by subst.
  - intros members now1 now2. by rewrite !buildTopology_services.
Qed.

(** C7: every service the builder derives from a membership record is in
    the built topology with status healthy when the record's status is
    alive, unhealthy when it is leaving, left or failed, and unknown for
    any other status string. *)
Theorem buildTopology_status (members : list Member.t) (now : Z)
    (member : Member.t) (svc : Service.t) :
  member ∈ members → svc ∈ derived member →
  svc ∈ Services (buildTopology unmarshalServices members now) ∧
  (Member.Status member = "alive" →
     Service.Status svc = SERVICE_STATUS_HEALTHY) ∧
  (Member.Status member = "leaving" ∨ Member.Status member = "left" ∨
   Member.Status member = "failed" →
     Service.Status svc = SERVICE_STATUS_UNHEALTHY) ∧
  (Member.Status member ∉ ["alive"; "leaving"; "left"; "failed"] →
     Service.Status svc = SERVICE_STATUS_UNKNOWN).
Proof.
  intros Hmember Hsvc. split.
  { rewrite buildTopology_services. apply list_elem_of_In, in_concat.
    exists (derived member). split; apply list_elem_of_In; [|done].
    apply list_elem_of_fmap. by exists member. }
  destruct (derived_status member svc Hsvc) as [-> _].
  unfold mapStatus, StatusAlive, StatusLeaving, StatusLeft, StatusFailed.
  split; [|split].
  - intros ->. done.
  - intros [->| [->| ->]]; done.
  - intros Hother.
    rewrite decide_False by (intros Heq; apply Hother; rewrite Heq; set_solver).
    rewrite decide_False by (intros [Heq|Heq]; apply Hother; rewrite Heq; set_solver).
    rewrite decide_False by (intros Heq; apply Hother; rewrite Heq; set_solver).
    done.
Qed.


(** C10: with a path of at least two nodes, the entry node is its second
    element and the address used is that of the first service in the
    topology's list hosted on the entry node: when that address is empty
    the call fails with Internal, whatever addresses later services on
    the same node have; otherwise the request goes to that address. *)
Theorem GetServiceResources_entry_address (members : list Member.t) (now : Z)
    (graph : Graph) (name : string) (target host : Service.t)
    (self entryNode : string) (rest : list string) :
  let topology := buildTopology unmarshalServices members now in
  let outcome := GetServiceResources unmarshalServices Resource decodeResources
                   post members now graph name in
  first_where (λ svc, Service.Name svc = name) (Services topology) target →
  FindPath graph "heimdall" (Service.NodeName target)
    = Return (Some (self :: entryNode :: rest)) →
  first_where (λ svc, Service.NodeName svc = entryNode) (Services topology) host →
  (Service.Address host = "" → outcome = Err Resource CodeInternal) ∧
  (Service.Address host ≠ "" →
     outcome = forward Resource decodeResources post
                 (mkForward ("http://" +:+ Service.Address host +:+
                               "/meta.v1.LokiMetaService/GetResources")
                    name (entryNode :: rest) 0)).
Proof.
  intros topology outcome Htarget Hpath Hhost. subst outcome.
  unfold GetServiceResources, route. fold topology. unfold findService.
  rewrite (find_first_where (λ svc, Service.Name svc = name) _ target) by done.
  rewrite Hpath. unfold entryAddress.
  rewrite (find_first_where (λ svc, Service.NodeName svc = entryNode) _ host) by done.
  split; intros Haddr.
  - by rewrite decide_True.
  - by rewrite decide_False.
Qed.
End ObserverFacts.

(** ** Closed examples for the builder and the router *)

(** The structured tag of [multi_member] yields its two services, both
    hosted on [n1]; the legacy tag pair yields one. *)
Example buildTopology_sample :
  (Service.Name <$> Services (buildTopology sample_unmarshalServices
                                [multi_member; legacy_member "n2" "failed"] 0))
    = ["api"; "db"; "api"] ∧
  (Service.NodeName <$> Services (buildTopology sample_unmarshalServices
                                [multi_member; legacy_member "n2" "failed"] 0))
    = ["n1"; "n1"; "n2"] ∧
  (Service.Status <$> Services (buildTopology sample_unmarshalServices
                                [multi_member; legacy_member "n2" "failed"] 0))
    = [SERVICE_STATUS_HEALTHY; SERVICE_STATUS_HEALTHY; SERVICE_STATUS_UNHEALTHY].
Proof. vm_compute. done. Qed.

(** C5 as stated fails: with two members that each host a service, one
    build may read them as [n1], [n2] and the next as [n2], [n1], and the
    two service lists then differ in order. *)
Lemma buildTopology_order_varies :
  ¬ (∀ (unmarshalServices : string → option (list ServiceInfo.t))
       (serf : option (gmap string Member.t)) (now1 now2 : Z)
       (topology1 topology2 : Topology),
       buildTopology_reads unmarshalServices serf now1 topology1 →
       buildTopology_reads unmarshalServices serf now2 topology2 →
       Services topology1 = Services topology2).
Proof.
  intros Hsame.
  specialize (Hsame sample_unmarshalServices (Some sample_table) 1%Z 2%Z
                (buildTopology sample_unmarshalServices
                   [legacy_member "n1" "alive"; legacy_member "n2" "alive"] 1)
                (buildTopology sample_unmarshalServices
                   [legacy_member "n2" "alive"; legacy_member "n1" "alive"] 2)).
  assert ((map_to_list sample_table).*2 ≡ₚ
            [legacy_member "n1" "alive"; legacy_member "n2" "alive"]) as Htable.
  { unfold sample_table.
    rewrite map_to_list_insert
      by (rewrite lookup_insert_ne by done; apply lookup_empty).
    rewrite map_to_list_insert by apply lookup_empty.
    by rewrite map_to_list_empty. }
  assert (Services (buildTopology sample_unmarshalServices
                      [legacy_member "n1" "alive"; legacy_member "n2" "alive"] 1)
          = Services (buildTopology sample_unmarshalServices
                        [legacy_member "n2" "alive"; legacy_member "n1" "alive"] 2))
    as Heq.
  { apply Hsame.
    - eexists. split; [|done]. cbn. unfold serf_Members. by rewrite Htable.
    - eexists. split; [|done]. cbn. unfold serf_Members. rewrite Htable.
      apply perm_swap. }
  vm_compute in Heq. discriminate.
Qed.

Lemma buildTopology_same_services_witness :
  let topology1 := buildTopology sample_unmarshalServices
                     [legacy_member "n1" "alive"; legacy_member "n2" "alive"] 1 in
  let topology2 := buildTopology sample_unmarshalServices
                     [legacy_member "n2" "alive"; legacy_member "n1" "alive"] 2 in
  buildTopology_reads sample_unmarshalServices (Some sample_table) 1 topology1 ∧
  buildTopology_reads sample_unmarshalServices (Some sample_table) 2 topology2 ∧
  Services topology1 ≡ₚ Services topology2 ∧
  Timestamp topology1 = 1%Z ∧ Timestamp topology2 = 2%Z.
Proof.
  intros topology1 topology2.
  assert ((map_to_list sample_table).*2 ≡ₚ
            [legacy_member "n1" "alive"; legacy_member "n2" "alive"]) as Htable.
  { unfold sample_table.
    rewrite map_to_list_insert
      by (rewrite lookup_insert_ne by done; apply lookup_empty).
    rewrite map_to_list_insert by apply lookup_empty.
    by rewrite map_to_list_empty. }
  assert (buildTopology_reads sample_unmarshalServices (Some sample_table) 1 topology1)
    as Hread1.
  { eexists. split; [|done]. cbn. unfold serf_Members. by rewrite Htable. }
  assert (buildTopology_reads sample_unmarshalServices (Some sample_table) 2 topology2)
    as Hread2.
  { eexists. split; [|done]. cbn. unfold serf_Members. rewrite Htable.
    apply perm_swap. }
  split; [exact Hread1|]. split; [exact Hread2|].
  destruct (buildTopology_same_services sample_unmarshalServices) as [Hreads _].
  exact (Hreads (Some sample_table) 1%Z 2%Z topology1 topology2 Hread1 Hread2).
Defined.

Lemma buildTopology_status_witness :
  let member := legacy_member "n1" "alive" in
  let svc := Service.mk "api" "http" "10.0.0.1" "n1" [] SERVICE_STATUS_HEALTHY
               (Member.Tags member) in
  member ∈ [member] ∧ svc ∈ derived sample_unmarshalServices member ∧
  svc ∈ Services (buildTopology sample_unmarshalServices [member] 1700000000000) ∧
  Service.Status svc = SERVICE_STATUS_HEALTHY.
Proof.
  intros member svc.
  assert (member ∈ [member]) as Hmember by left.
  assert (svc ∈ derived sample_unmarshalServices member) as Hsvc by (vm_compute; left).
  destruct (buildTopology_status sample_unmarshalServices [member] 1700000000000
              member svc Hmember Hsvc) as (Hin & Halive & _).
  split; [exact Hmember|]. split; [exact Hsvc|]. split; [exact Hin|].
  by apply Halive.
Defined.


(** [n1] hosts [api] (no address) before [db] (with an address); a request
    for [db] enters at [n1] and is refused for the missing address of
    [api]. *)
Lemma GetServiceResources_entry_address_witness :
  let graph : Graph := <["heimdall" := ["n1"]]> (<["n1" := ["heimdall"]]> NewGraph) in
  let api := Service.mk "api" "http" "" "n1" [] SERVICE_STATUS_HEALTHY
               (Member.Tags multi_member) in
  let db := Service.mk "db" "postgres" "10.0.0.2:5432" "n1" ["api"]
              SERVICE_STATUS_HEALTHY (Member.Tags multi_member) in
  Services (buildTopology sample_unmarshalServices [multi_member] 0) = [api; db] ∧
  FindPath graph "heimdall" "n1" = Return (Some ["heimdall"; "n1"]) ∧
  GetServiceResources sample_unmarshalServices unit sample_decodeResources
    sample_post [multi_member] 0 graph "db" = Err unit CodeInternal.
Proof.
  intros graph api db.
  assert (Services (buildTopology sample_unmarshalServices [multi_member] 0) = [api; db])
    as Hservices by (vm_compute; reflexivity).
  assert (FindPath graph "heimdall" "n1" = Return (Some ["heimdall"; "n1"]))
    as Hpath by (vm_compute; reflexivity).
  split; [exact Hservices|]. split; [exact Hpath|].
  eapply (GetServiceResources_entry_address sample_unmarshalServices unit
            sample_decodeResources sample_post [multi_member] 0 graph "db" db api
            "heimdall" "n1" []).
  - exists [api], []. split; [exact Hservices|]. split; [reflexivity|].
    intros y ->%list_elem_of_singleton. discriminate.
  - exact Hpath.
  - exists [], [db]. split; [exact Hservices|]. split; [reflexivity|].
    by intros y ?%elem_of_nil.
  - reflexivity.
Defined.

(** * GetNeighbors and the caller's writes *)

Section GetNeighborsFacts.

(** Two stores that agree on every array a stored header points to give
    the same edge map. *)
Lemma view_agree (h1 h2 : heap) (es : gmap string slice) :
  (∀ node base n, es !! node = Some (Slice base n) → h1 !! base = h2 !! base) →
  view (mkGraphMem h1 es) = view (mkGraphMem h2 es).
Proof.
  intros Hagree. unfold view. cbn [mem edges]. apply map_eq. intros node.
  rewrite !lookup_fmap. destruct (es !! node) as [[|base n]|] eqn:Hnode; cbn; [done| |done].
  by rewrite (Hagree node base n Hnode).
Qed.

Lemma edges_of_view (g : GraphMem) (node : string) :
  edges_of (view g) node = elems (mem g) (edges_at g node).
Proof.
  unfold edges_of, view, edges_at. rewrite lookup_fmap.
  by destruct (edges g !! node).
Qed.

Lemma elems_length (g : GraphMem) (node : string) :
  well_formed g → length (elems (mem g) (edges_at g node)) = len (edges_at g node).
Proof.
  intros Hwf. unfold edges_at.
  destruct (edges g !! node) as [[|base n]|] eqn:Hnode; cbn; [done| |done].
  destruct (Hwf node base n Hnode) as (arr & -> & Hn). cbn.
  rewrite length_take. lia.
Qed.

(** A caller writing through a header only ever touches the array the
    header points to. *)
Lemma written_through_elsewhere (base : loc) (n : nat) (h1 h2 : heap) (other : loc) :
  written_through (Slice base n) h1 h2 → other ≠ base → h2 !! other = h1 !! other.
Proof.
  induction 1 as [|h1 h2 h3 i v _ IH Hset]; intros Hother; [done|].
  rewrite <- IH by done. cbn in Hset.
  destruct (decide (i < n)); [|discriminate]. injection Hset as <-.
  by rewrite lookup_alter_ne.
Qed.

(** C8: [GetNeighbors(n)] returns a non-nil slice, also for a node without
    an entry, whose elements are those of [n]'s stored list (none for a
    node without an entry); the call leaves the stored adjacency as it
    was, and so does every sequence of assignments to elements of the
    returned slice. *)
Theorem GetNeighbors_defensive_copy (g : GraphMem) (node : string) :
  well_formed g →
  (GetNeighbors g node).1 ≠ Nil ∧
  elems (mem (GetNeighbors g node).2) (GetNeighbors g node).1
    = edges_of (view g) node ∧
  (edges g !! node = None →
     elems (mem (GetNeighbors g node).2) (GetNeighbors g node).1 = []) ∧
  view (GetNeighbors g node).2 = view g ∧
  ∀ h, written_through (GetNeighbors g node).1 (mem (GetNeighbors g node).2) h →
       view (mkGraphMem h (edges g)) = view g.
Proof.
  intros Hwf. unfold GetNeighbors, make. cbn [fst snd mem edges copy].
  set (neighbors := edges_at g node).
  set (base := fresh (dom (mem g))).
  assert (mem g !! base = None) as Hfresh.
  { apply not_elem_of_dom. apply is_fresh. }
  assert (∀ x b n, edges g !! x = Some (Slice b n) → b ≠ base) as Hstored.
  { intros x b n Hx ->. destruct (Hwf x base n Hx) as (arr & Harr & _). congruence. }
  assert (elems (<[base := replicate (len neighbors) ""]> (mem g)) neighbors
          = elems (mem g) neighbors) as Hread.
  { subst neighbors. unfold edges_at.
    destruct (edges g !! node) as [[|b n]|] eqn:Hnode; cbn; [done| |done].
    rewrite lookup_insert_ne; [done|]. intros <-. by eapply Hstored. }
  assert (elems (alter (λ arr, take (len neighbors `min` len neighbors)
                     (elems (<[base := replicate (len neighbors) ""]> (mem g)) neighbors)
                     ++ drop (len neighbors `min` len neighbors) arr) base
                   (<[base := replicate (len neighbors) ""]> (mem g)))
                (Slice base (len neighbors)) = elems (mem g) neighbors) as Hcopy.
  { cbn [elems]. rewrite lookup_alter_eq, lookup_insert_eq. cbn.
    rewrite Hread, Nat.min_id.
    pose proof (elems_length g node Hwf) as Hlen. fold neighbors in Hlen.
    rewrite drop_ge by (rewrite length_replicate; lia).
    rewrite app_nil_r, take_take, Nat.min_id.
    apply take_ge. lia. }
  destruct g as [h es]. cbn [mem edges] in *.
  split; [done|]. split; [by rewrite Hcopy, edges_of_view|].
  split.
  { intros Hnone. rewrite Hcopy. subst neighbors. unfold edges_at. cbn.
    by rewrite Hnone. }
  split.
  - apply view_agree. intros x b n Hx.
    rewrite lookup_alter_ne, lookup_insert_ne; [done| |]; intros <-; by eapply Hstored.
  - intros h' Hwritten. apply view_agree. intros x b n Hx.
    rewrite (written_through_elsewhere base _ _ h' b Hwritten) by (by eapply Hstored).
    rewrite lookup_alter_ne, lookup_insert_ne; [done| |]; intros <-; by eapply Hstored.
Qed.

End GetNeighborsFacts.

(** Writing through a stored header itself does change the adjacency: this
    is what the copy in [GetNeighbors] prevents. *)
Example stored_header_is_shared :
  ∃ h, set_index (mem sample_graph_mem) (edges_at sample_graph_mem "a") 0 "z" = Some h ∧
       edges_of (view (mkGraphMem h (edges sample_graph_mem))) "a" = ["z"; "c"].
Proof. eexists. split; [reflexivity|]. vm_compute. reflexivity. Qed.

Lemma GetNeighbors_defensive_copy_witness :
  well_formed sample_graph_mem ∧
  (GetNeighbors sample_graph_mem "a").1 ≠ Nil ∧
  elems (mem (GetNeighbors sample_graph_mem "a").2) (GetNeighbors sample_graph_mem "a").1
    = ["b"; "c"] ∧
  view (GetNeighbors sample_graph_mem "a").2 = view sample_graph_mem.
Proof.
  assert (well_formed sample_graph_mem) as Hwf.
  { intros node base n. unfold sample_graph_mem. cbn [edges mem].
    rewrite lookup_insert. case_decide.
    - intros [= <- <-]. exists ["b"; "c"]. split; [reflexivity|cbn; lia].
    - rewrite lookup_insert. case_decide; [|by rewrite lookup_empty].
      intros [= <- <-]. exists ["a"]. split; [reflexivity|cbn; lia]. }
  destruct (GetNeighbors_defensive_copy sample_graph_mem "a" Hwf)
    as (Hnil & Helems & _ & Hview & _).
  split; [exact Hwf|]. split; [exact Hnil|]. split; [|exact Hview].
  rewrite Helems. vm_compute. reflexivity.
Defined.

(** * FindPath: breadth-first search *)

Section Paths.
Variable g : Graph.

Lemma chain_snoc (p : list string) (x y : string) :
  last p = Some x → chain g p → y ∈ edges_of g x → chain g (p ++ [y]).
Proof.
  induction p as [|u [|v rest] IH]; intros Hlast Hchain Hedge; [done| |].
  - injection Hlast as ->. by split.
  - destruct Hchain as [Huv Hrest]. split; [done|]. by apply IH.
Qed.

Lemma chain_unsnoc (p : list string) (y : string) :
  chain g (p ++ [y]) →
  chain g p ∧ ∀ x, last p = Some x → y ∈ edges_of g x.
Proof.
  induction p as [|u [|v rest] IH]; intros Hchain.
  - by split.
  - destruct Hchain as [Huy _]. split; [done|]. by intros x [= <-].
  - destruct Hchain as [Huv Hrest]. apply IH in Hrest as [Hchain Hlast].
    split; [by split|]. intros x Hx. by apply Hlast.
Qed.

Lemma walk_last (a : string) (p : list string) (x : string) :
  walk g a p x → last p = Some x.
Proof. destruct 1; [done|apply last_snoc]. Qed.

Lemma walk_connects (a x : string) (p : list string) :
  walk g a p x ↔ connects g a x p.
Proof.
  split.
  - induction 1 as [|p x y Hwalk (Hhead & Hlast & Hchain) Hedge]; [done|].
    split; [|split].
    + destruct p; [done|exact Hhead].
    + apply last_snoc.
    + by eapply chain_snoc.
  - revert x. induction p as [|y p IH] using rev_ind; intros x (Hhead & Hlast & Hchain);
      [done|].
    rewrite last_snoc in Hlast. injection Hlast as ->.
    destruct p as [|u p] using rev_ind.
    + injection Hhead as ->. constructor.
    + clear IHp. apply chain_unsnoc in Hchain as [Hchain Hedge].
      apply walk_step with (x := u).
      * apply IH. split; [|split; [apply last_snoc|done]].
        destruct p; exact Hhead.
      * apply Hedge, last_snoc.
Qed.

Section Avoiding.
Variables a to : string.
Hypothesis Hdistinct : a ≠ to.

Lemma reach_not_target (k : nat) (x : string) : reach g to a k x → x ≠ to.
Proof. by destruct 1. Qed.

(** A walk either stays clear of [to], or has passed a node that has
    [to] as a neighbor, no later than its one-but-last step. *)
Lemma walk_reach (p : list string) (x : string) :
  walk g a p x →
  (∃ k, length p = S k ∧ reach g to a k x) ∨
  (∃ k y, reach g to a k y ∧ to ∈ edges_of g y ∧ k + 2 ≤ length p).
Proof.
  induction 1 as [|p x y Hwalk IH Hedge].
  - left. exists 0. split; [done|constructor].
  - rewrite length_app. cbn [length].
    destruct IH as [(k & Hlen & Hreach)|(k & z & Hreach & Hz & Hlen)].
    + destruct (decide (y = to)) as [->|Hy].
      * right. exists k, x. split; [done|]. split; [done|lia].
      * left. exists (S k). split; [lia|]. by eapply reach_step.
    + right. exists k, z. split; [done|]. split; [done|lia].
Qed.

(** Every path from [a] to [to] goes through a node that is next to
    [to] and reachable clear of [to]. *)
Lemma connects_reach (q : list string) :
  connects g a to q →
  ∃ k y, reach g to a k y ∧ to ∈ edges_of g y ∧ k + 2 ≤ length q.
Proof.
  intros Hq%walk_connects. destruct (walk_reach q to Hq) as [(k & _ & Hreach)|Hvia];
    [|done].
  by apply reach_not_target in Hreach.
Qed.

End Avoiding.
End Paths.

Section Search.
Variable g : Graph.
Variables a to : string.
Hypothesis Hdistinct : a ≠ to.
Local Abbreviation search_inv := (search_inv g a to).

(** What one pass over a neighbor list comes to. *)
Lemma scan_spec (p neighbors : list string) (visited : gset string)
    (queue : list (list string)) :
  match scan to p neighbors visited queue with
  | Found r => r = p ++ [to] ∧ to ∈ neighbors
  | Continue visited' queue' =>
      (to ∉ neighbors) ∧
      ∃ fresh_nodes,
        queue' = queue ++ ((λ n, p ++ [n]) <$> fresh_nodes) ∧
        (∀ n, n ∈ visited' ↔ n ∈ visited ∨ n ∈ fresh_nodes) ∧
        (∀ n, n ∈ fresh_nodes → n ∈ neighbors ∧ n ∉ visited) ∧
        (∀ n, n ∈ neighbors → n ∈ visited')
  end.
Proof.
  revert visited queue.
  induction neighbors as [|nb rest IH]; intros visited queue; cbn [scan].
  - split; [by intros ?%elem_of_nil|]. exists [].
    split; [by rewrite app_nil_r|]. split.
    { intros n. split; [by left|]. by intros [?|?%elem_of_nil]. }
    split; by intros n ?%elem_of_nil.
  - destruct (decide (nb = to)) as [->|Hnb]; [split; [done|left]|].
    destruct (decide (nb ∈ visited)) as [Hv|Hv].
    + specialize (IH visited queue).
      destruct (scan to p rest visited queue) as [r|visited' queue'].
      * destruct IH as [-> Hin]. split; [done|by right].
      * destruct IH as (Hto & fresh_nodes & -> & Hvis & Hfresh & Hall).
        split; [intros [?|?]%elem_of_cons; [congruence|done]|].
        exists fresh_nodes. split; [done|]. split; [done|]. split.
        -- intros n Hn. destruct (Hfresh n Hn). split; [by right|done].
        -- intros n [->|Hn]%elem_of_cons; [apply Hvis; by left|by apply Hall].
    + specialize (IH ({[nb]} ∪ visited) (queue ++ [p ++ [nb]])).
      destruct (scan to p rest ({[nb]} ∪ visited) (queue ++ [p ++ [nb]]))
        as [r|visited' queue'].
      * destruct IH as [-> Hin]. split; [done|by right].
      * destruct IH as (Hto & fresh_nodes & -> & Hvis & Hfresh & Hall).
        split; [intros [?|?]%elem_of_cons; [congruence|done]|].
        exists (nb :: fresh_nodes). split; [by rewrite <- app_assoc|].
        split; [|split].
        -- intros n. rewrite Hvis, elem_of_union, elem_of_singleton, elem_of_cons.
           tauto.
        -- intros n [->|Hn]%elem_of_cons; [split; [left|done]|].
           destruct (Hfresh n Hn) as [Hrest Hnot]. split; [by right|].
           intros Hn'. apply Hnot, elem_of_union. by right.
        -- intros n [->|Hn]%elem_of_cons; [|by apply Hall].
           apply Hvis. left. apply elem_of_union. left. by apply elem_of_singleton.
Qed.

Lemma search_inv_start : search_inv 0 [[a]] {[a]}.
Proof.
  split.
  - intros p ->%list_elem_of_singleton. exists a. constructor.
  - by intros ->%elem_of_singleton.
  - exists [[a]], []. split; [done|].
    split; [by intros p ->%list_elem_of_singleton|by intros p ?%elem_of_nil].
  - intros k x Hreach Hk. destruct Hreach; [by apply elem_of_singleton|lia].
  - intros p x k ->%list_elem_of_singleton _ _. cbn. lia.
  - intros v ->%elem_of_singleton Hnot. exfalso. apply (Hnot [a]); [left|done].
Qed.

(** When the paths of [d] edges are used up, the queue is at level
    [d+1]. *)
Lemma search_inv_level (d : nat) (p : list string) (queue : list (list string))
    (visited : gset string) :
  search_inv d (p :: queue) visited →
  ∃ d', search_inv d' (p :: queue) visited ∧ length p = S d' ∧
        ∀ q, q ∈ p :: queue → S d' ≤ length q.
Proof.
  intros Hinv. destruct (inv_levels _ _ _ _ _ _ Hinv) as ([|p0 now] & next & Hq & Hnow & Hnext).
  - cbn in Hq. subst next. exists (S d). split; [|split].
    + split; try apply Hinv.
      * exists (p :: queue), []. split; [by rewrite app_nil_r|].
        split; [done|by intros q ?%elem_of_nil].
      * intros k x Hreach Hk.
        destruct (decide (k ≤ d)) as [Hle|Hgt]; [by eapply inv_near|].
        assert (k = S d) as -> by lia.
        inversion Hreach as [|k' x' y Hx' Hedge Hy]; subst.
        assert (x' ∈ visited) as Hv by (by eapply inv_near).
        eapply (inv_expanded _ _ _ _ _ _ Hinv x' Hv); [|done].
        intros q Hqin Hlast.
        pose proof (inv_short _ _ _ _ _ _ Hinv q x' d Hqin Hlast Hx') as Hshort.
        rewrite (Hnext q Hqin) in Hshort. lia.
    + apply Hnext. left.
    + intros q Hqin. by rewrite (Hnext q Hqin).
  - injection Hq as <- ->. exists d. split; [done|]. split; [apply Hnow; left|].
    intros q [->|[Hq|Hq]%elem_of_app]%elem_of_cons.
    + rewrite (Hnow p); [done|left].
    + rewrite (Hnow q); [done|by right].
    + rewrite (Hnext q Hq). lia.
Qed.

(** An iteration of the outer loop that does not find the target keeps
    the invariant. *)
Lemma search_inv_step (d : nat) (p : list string) (x : string)
    (queue queue' : list (list string)) (visited visited' : gset string) :
  search_inv d (p :: queue) visited → length p = S d → last p = Some x →
  scan to p (edges_of g x) visited queue = Continue visited' queue' →
  search_inv d queue' visited'.
Proof.
  intros Hinv Hlen Hlast Hscan.
  pose proof (scan_spec p (edges_of g x) visited queue) as Hspec.
  rewrite Hscan in Hspec.
  destruct Hspec as (Hto & fresh_nodes & -> & Hvis & Hfresh & Hall).
  assert (walk g a p x) as Hwalk.
  { destruct (inv_walks _ _ _ _ _ _ Hinv p) as [x' Hx']; [left|].
    pose proof (walk_last _ _ _ _ Hx') as Hlast'. congruence. }
  split.
  - intros q [Hq|(n & -> & Hn)%list_elem_of_fmap]%elem_of_app.
    + apply (inv_walks _ _ _ _ _ _ Hinv). by right.
    + exists n. eapply walk_step; [done|]. by apply Hfresh.
  - rewrite Hvis. intros [Hv|Hn].
    + by apply (inv_target _ _ _ _ _ _ Hinv).
    + apply Hfresh in Hn as [Hn _]. done.
  - destruct (inv_levels _ _ _ _ _ _ Hinv) as ([|p0 now] & next & Hq & Hnow & Hnext).
    + cbn in Hq. subst next. rewrite (Hnext p) in Hlen; [lia|left].
    + injection Hq as <- ->.
      exists now, (next ++ ((λ n, p ++ [n]) <$> fresh_nodes)).
      split; [by rewrite app_assoc|]. split; [intros q Hq; apply Hnow; by right|].
      intros q [Hq|(n & -> & Hn)%list_elem_of_fmap]%elem_of_app; [by apply Hnext|].
      rewrite length_app. cbn. lia.
  - intros k y Hreach Hk. apply Hvis. left. by eapply inv_near.
  - intros q y k [Hq|(n & -> & Hn)%list_elem_of_fmap]%elem_of_app Hqlast Hreach.
    + eapply inv_short; [done|by right|done..].
    + rewrite last_snoc in Hqlast. injection Hqlast as <-.
      rewrite length_app. cbn. rewrite Hlen.
      destruct (decide (k ≤ d)) as [Hle|Hgt]; [|lia].
      exfalso. apply Hfresh in Hn as [_ Hn]. apply Hn. by eapply inv_near.
  - intros v Hv Hnotq u Hu.
    apply Hvis in Hv as [Hv|Hv].
    + destruct (decide (v = x)) as [->|Hvx].
      * split; [intros ->; done|by apply Hall].
      * destruct (inv_expanded _ _ _ _ _ _ Hinv v Hv) with (u := u) as [Hne Huv]; [|done|].
        { intros q [->|Hq]%elem_of_cons Hqlast; [congruence|].
          apply (Hnotq q); [|done]. apply elem_of_app. by left. }
        split; [done|]. apply Hvis. by left.
    + exfalso. apply (Hnotq (p ++ [v])); [|apply last_snoc].
      apply elem_of_app. right. apply list_elem_of_fmap. by exists v.
Qed.

(** An iteration of the outer loop that finds the target returns a walk
    to it that no other way to the target undercuts. *)
Lemma search_found (d : nat) (p r : list string) (x : string)
    (queue : list (list string)) (visited : gset string) :
  search_inv d (p :: queue) visited → length p = S d →
  (∀ q, q ∈ p :: queue → S d ≤ length q) → last p = Some x →
  scan to p (edges_of g x) visited queue = Found r →
  walk g a r to ∧
  ∀ k y, reach g to a k y → to ∈ edges_of g y → length r ≤ k + 2.
Proof.
  intros Hinv Hlen Hmin Hlast Hscan.
  pose proof (scan_spec p (edges_of g x) visited queue) as Hspec.
  rewrite Hscan in Hspec. destruct Hspec as [-> Hedge].
  assert (walk g a p x) as Hwalk.
  { destruct (inv_walks _ _ _ _ _ _ Hinv p) as [x' Hx']; [left|].
    pose proof (walk_last _ _ _ _ Hx') as Hlast'. congruence. }
  split; [by eapply walk_step|].
  intros k y Hreach Hy. rewrite length_app. cbn. rewrite Hlen.
  destruct (decide (d ≤ k)) as [Hle|Hgt]; [lia|]. exfalso.
  assert (y ∈ visited) as Hv by (eapply inv_near; [done..|lia]).
  destruct (decide (Exists (λ q, last q = Some y) (p :: queue))) as [Hex|Hnex].
  - apply Exists_exists in Hex as (q & Hq & Hqlast).
    pose proof (inv_short _ _ _ _ _ _ Hinv q y k Hq Hqlast Hreach).
    pose proof (Hmin q Hq). lia.
  - destruct (inv_expanded _ _ _ _ _ _ Hinv y Hv) with (u := to) as [Hne _]; [|done|done].
    intros q Hq Hqlast. apply Hnex, Exists_exists. by exists q.
Qed.

(** When the queue has run empty, nothing reachable clear of the target
    is next to it. *)
Lemma search_exhausted (d : nat) (visited : gset string) :
  search_inv d [] visited →
  ∀ k y, reach g to a k y → to ∉ edges_of g y.
Proof.
  intros Hinv.
  assert (∀ k y, reach g to a k y → y ∈ visited) as Hall.
  { induction 1 as [|k x y _ IH Hedge Hy].
    - eapply inv_near; [done|constructor|lia].
    - eapply (inv_expanded _ _ _ _ _ _ Hinv x IH); [|done]. by intros q ?%elem_of_nil. }
  intros k y Hreach Hy.
  destruct (inv_expanded _ _ _ _ _ _ Hinv y (Hall k y Hreach)) with (u := to) as [Hne _];
    [by intros q ?%elem_of_nil|done|done].
Qed.

(** The outer loop, started in a state that satisfies the invariant. *)
Lemma bfs_spec (queue : list (list string)) (visited : gset string) (d : nat) :
  search_inv d queue visited →
  match bfs g to queue visited with
  | Panic => False
  | Return (Some r) =>
      walk g a r to ∧
      ∀ k y, reach g to a k y → to ∈ edges_of g y → length r ≤ k + 2
  | Return None => ∀ k y, reach g to a k y → to ∉ edges_of g y
  end.
Proof.
  revert d. funelim (bfs g to queue visited); intros d Hinv.
  - by eapply search_exhausted.
  - destruct (inv_walks _ _ _ _ _ _ Hinv path0) as [x Hx]; [left|].
    apply walk_last in Hx. congruence.
  - destruct (search_inv_level _ _ _ _ Hinv) as (d' & Hinv' & Hlen & Hmin).
    by eapply search_found.
  - destruct (search_inv_level _ _ _ _ Hinv) as (d' & Hinv' & Hlen & Hmin).
    match goal with IH : ∀ d, search_inv d _ _ → _ |- _ => apply (IH d') end.
    by eapply search_inv_step.
Qed.
End Search.

(** C2: for [a ≠ b], [FindPath(a, b)] returns normally.  A returned path
    starts at [a], ends at [b], follows a recorded edge at every step, and
    has no more edges than any other such path.  The result is [nil]
    exactly when no sequence of recorded edges leads from [a] to [b]; when
    one does, a path is returned. *)
Theorem FindPath_shortest (g : Graph) (a b : string) :
  a ≠ b →
  FindPath g a b ≠ Panic ∧
  (∀ p, FindPath g a b = Return (Some p) →
     connects g a b p ∧
     ∀ q, connects g a b q → length p - 1 ≤ length q - 1) ∧
  (FindPath g a b = Return None ↔ ¬ ∃ q, connects g a b q) ∧
  ((∃ q, connects g a b q) → ∃ p, FindPath g a b = Return (Some p)).
Proof.
  intros Hab. unfold FindPath. rewrite decide_False by done.
  pose proof (bfs_spec g a b _ _ 0 (search_inv_start g a b Hab)) as Hspec.
  destruct (bfs g b [[a]] {[a]}) as [|[r|]]; [done| |].
  - destruct Hspec as [Hwalk Hmin]. split; [done|]. split; [|split].
    + intros p [= <-]. split; [by apply walk_connects|].
      intros q (k & y & Hreach & Hy & Hlen)%(connects_reach g a b Hab).
      specialize (Hmin k y Hreach Hy). lia.
    + split; [done|]. intros Hnone. exfalso. apply Hnone.
      exists r. by apply walk_connects.
    + intros _. by exists r.
  - assert (¬ ∃ q, connects g a b q) as Hnone.
    { intros (q & (k & y & Hreach & Hy & _)%(connects_reach g a b Hab)).
      by apply (Hspec k y). }
    split; [done|]. split; [done|]. split; [done|]. by intros ?.
Qed.

Example FindPath_sample_found :
  FindPath sample_graph "a" "e" = Return (Some ["a"; "c"; "e"]).
Proof. vm_compute. reflexivity. Qed.

Example FindPath_sample_none : FindPath sample_graph "a" "z" = Return None.
Proof. vm_compute. reflexivity. Qed.

Lemma FindPath_shortest_witness :
  "a" ≠ "e" ∧
  FindPath sample_graph "a" "e" ≠ Panic ∧
  (connects sample_graph "a" "e" ["a"; "c"; "e"] ∧
   ∀ q, connects sample_graph "a" "e" q → 2 ≤ length q - 1) ∧
  ¬ FindPath sample_graph "a" "e" = Return None.
Proof.
  assert ("a" ≠ "e") as Hne by discriminate.
  destruct (FindPath_shortest sample_graph "a" "e" Hne) as (Hret & Hpath & Hnil & _).
  split; [exact Hne|]. split; [exact Hret|]. split.
  - apply (Hpath ["a"; "c"; "e"]). vm_compute. reflexivity.
  - intros Hnone. apply Hnil in Hnone. apply Hnone. exists ["a"; "c"; "e"].
    apply (Hpath ["a"; "c"; "e"]). vm_compute. reflexivity.
Defined.

(** * Further properties of Update *)

Section UpdateMore.
Variable unmarshal : list byte → option TopologyEvent.

(** The back-fill loop at the level of map entries. *)
Lemma lookup_backfill_all (node : string) (neighbors : list string)
    (g : Graph) (x : string) :
  foldl (backfill node) g neighbors !! x =
    if decide (x ∈ neighbors ∧ node ∉ edges_of g x)
    then Some (edges_of g x ++ [node]) else g !! x.
Proof.
  revert g. induction neighbors as [|nb rest IH]; intros g; cbn [foldl].
  - rewrite decide_False; [done|]. intros [?%elem_of_nil _]. done.
  - rewrite IH, !edges_of_backfill. unfold backfill.
    destruct (found_in node (edges_of g nb)) eqn:Hf.
    + apply found_in_spec in Hf.
      rewrite (decide_False (P := x = nb ∧ _)) by tauto.
      destruct (decide (x ∈ rest ∧ node ∉ edges_of g x)) as [[? ?]|Hno].
      * rewrite decide_True; [done|]. split; [by right|done].
      * rewrite decide_False; [done|]. rewrite elem_of_cons.
        intros [[->|?] ?]; tauto.
    + assert (node ∉ edges_of g nb) as Hnot.
      { intros Hin%found_in_spec. congruence. }
      destruct (decide (x = nb)) as [->|Hne].
      * rewrite (decide_True (P := nb = nb ∧ _)) by tauto.
        rewrite decide_False.
        -- rewrite lookup_insert_eq, decide_True; [done|]. split; [left|done].
        -- intros [_ Hn]. apply Hn, elem_of_app. right. left.
      * rewrite (decide_False (P := x = nb ∧ _)) by tauto.
        rewrite lookup_insert_ne by done.
        destruct (decide (x ∈ rest ∧ node ∉ edges_of g x)) as [[? ?]|Hno].
        -- rewrite decide_True; [done|]. split; [by right|done].
        -- rewrite decide_False; [done|]. rewrite elem_of_cons. tauto.
Qed.

Lemma lookup_store_other (event : TopologyEvent) (g : Graph) (x : string) :
  x ≠ Node event →
  store event g !! x =
    if decide (x ∈ Neighbors event ∧ Node event ∉ edges_of g x)
    then Some (edges_of g x ++ [Node event]) else g !! x.
Proof.
  intros Hne. unfold store. rewrite lookup_backfill_all, edges_of_insert.
  rewrite (decide_False (P := Node event = x)) by congruence.
  by rewrite lookup_insert_ne by congruence.
Qed.

(** The back-fill loop changes nothing when every neighbor already lists
    the node. *)
Lemma backfill_all_found (node : string) (neighbors : list string) (g : Graph) :
  (∀ b, b ∈ neighbors → node ∈ edges_of g b) →
  foldl (backfill node) g neighbors = g.
Proof.
  induction neighbors as [|nb rest IH]; intros Hall; cbn [foldl]; [done|].
  assert (backfill node g nb = g) as ->.
  { unfold backfill. destruct (found_in node (edges_of g nb)) eqn:Hf; [done|].
    assert (found_in node (edges_of g nb) = true); [|congruence].
    apply found_in_spec, Hall. left. }
  apply IH. intros b Hb. apply Hall. by right.
Qed.

(** X1: delivering the same payload twice in a row leaves the edge map
    as the first delivery left it. *)
Theorem Update_idempotent (g : Graph) (d : list byte) :
  (Update unmarshal (Update unmarshal g d).1 d).1 = (Update unmarshal g d).1.
Proof.
  unfold Update. destruct (unmarshal d) as [event|]; cbn [fst]; [|done].
  unfold store at 1.
  rewrite insert_id by apply store_lookup_self.
  apply backfill_all_found. intros b Hb. by apply store_reverse.
Qed.

(** X2: for a node [x] other than the announcing node [n], [Update] either
    leaves [x]'s stored list as it is, or appends [n] at its end; it
    appends exactly when [x] is announced and does not list [n] yet.  No
    element of [x]'s list is removed or moved. *)
Theorem Update_other_lists_only_grow (g : Graph) (d : list byte)
    (event : TopologyEvent) (x : string) :
  unmarshal d = Some event → x ≠ Node event →
  (x ∈ Neighbors event ∧ Node event ∉ edges_of g x →
     edges_of (Update unmarshal g d).1 x = edges_of g x ++ [Node event]) ∧
  (x ∉ Neighbors event ∨ Node event ∈ edges_of g x →
     (Update unmarshal g d).1 !! x = g !! x).
Proof.
  intros Hd Hx. unfold Update. rewrite Hd. cbn [fst]. split.
  - intros Hadd. rewrite edges_of_store_other by done. by rewrite decide_True.
  - intros Hkeep. rewrite lookup_store_other by done.
    rewrite decide_False; [done|]. tauto.
Qed.

(** X3: [Update] never deletes a key of the edge map, whether the payload
    parses or not. *)
Theorem Update_keeps_keys (g : Graph) (d : list byte) (x : string) :
  is_Some (g !! x) → is_Some ((Update unmarshal g d).1 !! x).
Proof.
  intros Hx. unfold Update. destruct (unmarshal d) as [event|]; cbn [fst]; [|done].
  destruct (decide (x = Node event)) as [->|Hne].
  - rewrite store_lookup_self. by eexists.
  - rewrite lookup_store_other by done. by case_decide.
Qed.

(** X4: [Update] introduces no duplicate into the list of a node other
    than the announcing one. *)
Theorem Update_no_new_duplicates (g : Graph) (d : list byte) (x : string) :
  (∀ event, unmarshal d = Some event → x ≠ Node event) →
  NoDup (edges_of g x) → NoDup (edges_of (Update unmarshal g d).1 x).
Proof.
  intros Hx Hnodup. unfold Update.
  destruct (unmarshal d) as [event|]; cbn [fst]; [|done].
  rewrite edges_of_store_other by (by apply Hx).
  case_decide as Hadd; [|done]. destruct Hadd as [_ Hnot].
  apply NoDup_app. split; [done|]. split; [|apply NoDup_singleton].
  intros y Hy ->%list_elem_of_singleton. done.
Qed.

(** X5: payloads that do not parse can be struck from a run of [Update]
    calls without changing the edge map it ends in. *)
Theorem updates_skip_malformed (g : Graph) (payloads : list (list byte)) :
  updates unmarshal g payloads
    = updates unmarshal g (filter (λ d, is_Some (unmarshal d)) payloads).
Proof.
  revert g. induction payloads as [|d rest IH]; intros g; [done|].
  destruct (unmarshal d) as [event|] eqn:Hd.
  - rewrite filter_cons_True by (by rewrite Hd). cbn [updates foldl]. apply IH.
  - rewrite filter_cons_False by (rewrite Hd; by intros [? ?]).
    cbn [updates foldl]. unfold Update at 2. rewrite Hd. cbn [fst]. apply IH.
Qed.
End UpdateMore.

Lemma Update_other_lists_only_grow_witness :
  let g := (Update sample_unmarshal NewGraph [x63; x62]%byte).1 in
  sample_unmarshal [x61; x62; x63]%byte = Some (mkEvent "a" ["b"; "c"]) ∧
  edges_of (Update sample_unmarshal g [x61; x62; x63]%byte).1 "b" = ["c"; "a"] ∧
  (Update sample_unmarshal g [x61; x63]%byte).1 !! "b" = g !! "b".
Proof.
  intros g. split; [reflexivity|]. split.
  - apply (Update_other_lists_only_grow sample_unmarshal g [x61; x62; x63]%byte
             (mkEvent "a" ["b"; "c"]) "b"); [reflexivity|discriminate|].
    split; [left|]. vm_compute.
    intros Hin%list_elem_of_singleton. discriminate.
  - apply (Update_other_lists_only_grow sample_unmarshal g [x61; x63]%byte
             (mkEvent "a" ["c"]) "b"); [reflexivity|discriminate|].
    left. intros Hin%list_elem_of_singleton. discriminate.
Defined.

Lemma Update_keeps_keys_witness :
  is_Some ((<["a" := ["b"]]> NewGraph : Graph) !! "a") ∧
  is_Some ((Update sample_unmarshal (<["a" := ["b"]]> NewGraph) [x61]%byte).1 !! "a").
Proof.
  assert (is_Some ((<["a" := ["b"]]> NewGraph : Graph) !! "a")) as Hin
    by (by eexists).
  split; [exact Hin|]. by apply Update_keeps_keys.
Defined.

Lemma Update_no_new_duplicates_witness :
  NoDup (edges_of (<["b" := ["c"]]> NewGraph) "b") ∧
  NoDup (edges_of (Update sample_unmarshal (<["b" := ["c"]]> NewGraph)
                     [x61; x62; x62]%byte).1 "b").
Proof.
  assert (NoDup (edges_of (<["b" := ["c"]]> NewGraph) "b")) as Hnodup.
  { vm_compute. apply NoDup_singleton. }
  split; [exact Hnodup|].
  apply Update_no_new_duplicates; [|exact Hnodup].
  intros event [= <-]. discriminate.
Defined.

(** * Further properties of FindPath *)

Section FindPathMore.
Variable g : Graph.

(** What a call with distinct endpoints comes to, in one statement. *)
Lemma FindPath_outcome (a b : string) :
  a ≠ b →
  match FindPath g a b with
  | Panic => False
  | Return (Some r) =>
      connects g a b r ∧ ∀ q, connects g a b q → length r ≤ length q
  | Return None => ∀ q, ¬ connects g a b q
  end.
Proof.
  intros Hab. unfold FindPath. rewrite decide_False by done.
  pose proof (bfs_spec g a b _ _ 0 (search_inv_start g a b Hab)) as Hspec.
  destruct (bfs g b [[a]] {[a]}) as [|[r|]]; [done| |].
  - destruct Hspec as [Hwalk Hmin]. split; [by apply walk_connects|].
    intros q (k & y & Hreach & Hy & Hlen)%(connects_reach g a b Hab).
    specialize (Hmin k y Hreach Hy). lia.
  - intros q (k & y & Hreach & Hy & _)%(connects_reach g a b Hab).
    by apply (Hspec k y).
Qed.

Lemma connects_two_nodes (a b : string) (p : list string) :
  connects g a b p → a ≠ b → ∃ x rest, p = a :: x :: rest ∧ x ∈ edges_of g a.
Proof.
  intros (Hhead & Hlast & Hchain) Hab.
  destruct p as [|u [|x rest]]; [done| |].
  - cbn in Hhead, Hlast. congruence.
  - injection Hhead as ->. exists x, rest. split; [done|]. by destruct Hchain.
Qed.

Lemma connects_last_edge (a b : string) (p : list string) :
  connects g a b p → a ≠ b → ∃ x, b ∈ edges_of g x.
Proof.
  intros Hp%walk_connects Hab. destruct Hp as [|p x y _ Hedge]; [done|by exists x].
Qed.

Lemma chain_app (l1 l2 : list string) (x : string) :
  chain g (l1 ++ x :: l2) ↔ chain g (l1 ++ [x]) ∧ chain g (x :: l2).
Proof.
  induction l1 as [|u [|v l1] IH].
  - cbn [app]. split; [by split|by intros [_ ?]].
  - cbn [app chain]. tauto.
  - change (v ∈ edges_of g u ∧ chain g ((v :: l1) ++ x :: l2) ↔
            (v ∈ edges_of g u ∧ chain g ((v :: l1) ++ [x])) ∧ chain g (x :: l2)).
    rewrite IH. tauto.
Qed.

(** A path that visits a node twice can be cut short. *)
Lemma connects_shortcut (a b x : string) (l1 l2 l3 : list string) :
  connects g a b (l1 ++ x :: l2 ++ x :: l3) → connects g a b (l1 ++ x :: l3).
Proof.
  intros (Hhead & Hlast & Hchain). split; [|split].
  - by destruct l1.
  - rewrite last_app_cons in Hlast. rewrite last_app_cons.
    rewrite app_comm_cons, last_app_cons in Hlast. done.
  - apply chain_app in Hchain as [Hfront Hback]. apply chain_app. split; [done|].
    rewrite app_comm_cons in Hback. by apply chain_app in Hback as [_ ?].
Qed.

Lemma repeated_node (p : list string) :
  ¬ NoDup p → ∃ l1 x l2 l3, p = l1 ++ x :: l2 ++ x :: l3.
Proof.
  induction p as [|u p IH]; intros Hdup.
  - exfalso. apply Hdup. constructor.
  - destruct (decide (u ∈ p)) as [Hin|Hnin].
    + apply list_elem_of_split in Hin as (l2 & l3 & ->). by exists [], u, l2, l3.
    + destruct IH as (l1 & x & l2 & l3 & ->).
      { intros Hp. apply Hdup. by constructor. }
      by exists (u :: l1), x, l2, l3.
Qed.

(** X6: a returned path visits no node twice. *)
Theorem FindPath_simple_path (a b : string) (p : list string) :
  FindPath g a b = Return (Some p) → NoDup p.
Proof.
  intros Hp. destruct (decide (a = b)) as [->|Hab].
  - unfold FindPath in Hp. rewrite decide_True in Hp by done.
    injection Hp as <-. apply NoDup_singleton.
  - pose proof (FindPath_outcome a b Hab) as Hout. rewrite Hp in Hout.
    destruct Hout as [Hconn Hmin].
    destruct (decide (NoDup p)) as [|Hdup]; [done|]. exfalso.
    apply repeated_node in Hdup as (l1 & x & l2 & l3 & ->).
    specialize (Hmin _ (connects_shortcut _ _ _ _ _ _ Hconn)).
    rewrite !length_app in Hmin. cbn [length] in Hmin.
    rewrite length_app in Hmin. cbn [length] in Hmin. lia.
Qed.

(** When [b] is in [a]'s stored list, the path returned is the edge
    itself. *)
Lemma direct_edge_path (a b : string) :
  a ≠ b → b ∈ edges_of g a → FindPath g a b = Return (Some [a; b]).
Proof.
  intros Hab Hedge. pose proof (FindPath_outcome a b Hab) as Hout.
  assert (connects g a b [a; b]) as Hdirect by (by split; [|split]).
  destruct (FindPath g a b) as [|[r|]]; [done| |by destruct (Hout [a; b])].
  destruct Hout as [Hconn Hmin]. specialize (Hmin _ Hdirect). cbn in Hmin.
  destruct (connects_two_nodes a b r Hconn Hab) as (x & rest & -> & _).
  destruct rest as [|? ?]; [|cbn in Hmin; lia].
  destruct Hconn as (_ & Hlast & _). cbn in Hlast. by injection Hlast as ->.
Qed.

(** X7: a source without stored neighbors, or a target that no stored
    list mentions, gives the no-path result. *)
Theorem FindPath_unknown_endpoint (a b : string) :
  a ≠ b → edges_of g a = [] ∨ (∀ x, b ∉ edges_of g x) →
  FindPath g a b = Return None.
Proof.
  intros Hab Hunknown. pose proof (FindPath_outcome a b Hab) as Hout.
  destruct (FindPath g a b) as [|[r|]]; [done| |done].
  destruct Hout as [Hconn _]. exfalso. destruct Hunknown as [Hsrc|Htgt].
  - destruct (connects_two_nodes a b r Hconn Hab) as (x & rest & _ & Hx).
    rewrite Hsrc in Hx. by apply elem_of_nil in Hx.
  - destruct (connects_last_edge a b r Hconn Hab) as [x Hx]. by apply (Htgt x).
Qed.

Lemma chain_reverse (p : list string) :
  symmetric g → chain g p → chain g (reverse p).
Proof.
  intros Hsym. induction p as [|u [|v rest] IH]; intros Hchain; [done..|].
  destruct Hchain as [Huv Hrest]. rewrite reverse_cons.
  apply chain_snoc with (x := v); [|by apply IH|by apply Hsym].
  by rewrite last_reverse.
Qed.

Lemma connects_reverse (a b : string) (p : list string) :
  symmetric g → connects g a b p → connects g b a (reverse p).
Proof.
  intros Hsym (Hhead & Hlast & Hchain). split; [|split].
  - by rewrite head_reverse.
  - by rewrite last_reverse.
  - by apply chain_reverse.
Qed.

(** X8: on a symmetric edge map the search gives the same answer in both
    directions: no path one way means no path the other way, and two
    returned paths have the same length. *)
Theorem FindPath_symmetric_graph (a b : string) :
  symmetric g →
  (FindPath g a b = Return None ↔ FindPath g b a = Return None) ∧
  (∀ p q, FindPath g a b = Return (Some p) → FindPath g b a = Return (Some q) →
          length p = length q).
Proof.
  intros Hsym. destruct (decide (a = b)) as [->|Hab].
  { split; [done|]. by intros p q -> [= ->]. }
  assert (b ≠ a) as Hba by congruence.
  pose proof (FindPath_outcome a b Hab) as Hab'.
  pose proof (FindPath_outcome b a Hba) as Hba'.
  destruct (FindPath g a b) as [|[p|]], (FindPath g b a) as [|[q|]]; try done.
  - split; [done|]. intros ? ? [= <-] [= <-].
    destruct Hab' as [Hp Hpmin], Hba' as [Hq Hqmin].
    specialize (Hpmin _ (connects_reverse _ _ _ Hsym Hq)).
    specialize (Hqmin _ (connects_reverse _ _ _ Hsym Hp)).
    rewrite length_reverse in *. lia.
  - destruct Hab' as [Hp _]. by destruct (Hba' _ (connects_reverse _ _ _ Hsym Hp)).
  - destruct Hba' as [Hq _]. by destruct (Hab' _ (connects_reverse _ _ _ Hsym Hq)).
Qed.
End FindPathMore.

(** X9: when [b] is in [a]'s stored list and differs from [a],
    [FindPath(a, b)] returns the edge itself, [[a, b]].  So right after
    [Update] has stored an announcement of [n], the path from [n] to an
    announced neighbor [b], and the path back, is the single edge between
    them. *)
Theorem FindPath_direct_edge (g : Graph) :
  (∀ a b, a ≠ b → b ∈ edges_of g a → FindPath g a b = Return (Some [a; b])) ∧
  (∀ (unmarshal : list byte → option TopologyEvent) d event b,
     unmarshal d = Some event → b ∈ Neighbors event → b ≠ Node event →
     FindPath (Update unmarshal g d).1 (Node event) b
       = Return (Some [Node event; b]) ∧
     FindPath (Update unmarshal g d).1 b (Node event)
       = Return (Some [b; Node event])).
Proof.
  split; [apply direct_edge_path|].
  intros unmarshal d event b Hd Hb Hne. unfold Update. rewrite Hd. cbn [fst]. split.
  - apply direct_edge_path; [congruence|]. by rewrite edges_of_store_self.
  - apply direct_edge_path; [done|]. by apply store_reverse.
Qed.

Lemma FindPath_simple_path_witness :
  FindPath sample_graph "a" "e" = Return (Some ["a"; "c"; "e"]) ∧
  NoDup ["a"; "c"; "e"].
Proof.
  assert (FindPath sample_graph "a" "e" = Return (Some ["a"; "c"; "e"])) as Hp
    by (vm_compute; reflexivity).
  split; [exact Hp|]. exact (FindPath_simple_path sample_graph "a" "e" _ Hp).
Defined.

Lemma FindPath_direct_edge_witness :
  "a" ≠ "c" ∧ "c" ∈ edges_of sample_graph "a" ∧
  FindPath sample_graph "a" "c" = Return (Some ["a"; "c"]) ∧
  sample_unmarshal [x61; x62]%byte = Some (mkEvent "a" ["b"]) ∧
  FindPath (Update sample_unmarshal sample_graph [x61; x62]%byte).1 "b" "a"
    = Return (Some ["b"; "a"]).
Proof.
  assert ("a" ≠ "c") as Hne by discriminate.
  assert ("c" ∈ edges_of sample_graph "a") as Hedge by (vm_compute; right; left).
  destruct (FindPath_direct_edge sample_graph) as [Hdirect Hupdate].
  split; [exact Hne|]. split; [exact Hedge|]. split; [by apply Hdirect|].
  split; [reflexivity|].
  apply (Hupdate sample_unmarshal [x61; x62]%byte (mkEvent "a" ["b"]) "b");
    [reflexivity|left|discriminate].
Defined.

Lemma FindPath_unknown_endpoint_witness :
  "a" ≠ "z" ∧ (∀ x, "z" ∉ edges_of sample_graph x) ∧
  FindPath sample_graph "a" "z" = Return None.
Proof.
  assert ("a" ≠ "z") as Hne by discriminate.
  assert (∀ x, "z" ∉ edges_of sample_graph x) as Hnone.
  { intros x. unfold edges_of, sample_graph, NewGraph.
    rewrite !lookup_insert. repeat case_decide; cbn;
      rewrite ?lookup_empty, ?elem_of_cons, ?elem_of_nil; cbn;
      rewrite ?elem_of_nil; intuition discriminate. }
  split; [exact Hne|]. split; [exact Hnone|].
  apply FindPath_unknown_endpoint; [exact Hne|by right].
Defined.

Lemma FindPath_symmetric_graph_witness :
  let g : Graph := <["a" := ["b"]]> (<["b" := ["a"; "c"]]> (<["c" := ["b"]]> NewGraph)) in
  symmetric g ∧
  (∀ p q, FindPath g "a" "c" = Return (Some p) → FindPath g "c" "a" = Return (Some q) →
          length p = length q).
Proof.
  intros g.
  assert (symmetric g) as Hsym.
  { intros x y. unfold edges_of, g, NewGraph. rewrite !lookup_insert.
    repeat case_decide; subst; cbn; rewrite ?lookup_empty; cbn;
      rewrite ?elem_of_cons, ?elem_of_nil; intuition congruence. }
  split; [exact Hsym|]. apply (FindPath_symmetric_graph g "a" "c" Hsym).
Defined.

(** * Further properties of GetNeighbors *)

Section GetNeighborsMore.





End GetNeighborsMore.


(** * Further properties of the topology builder *)

(** The loop of [FilterMembers] keeps the members the filter accepts. *)
Lemma FilterMembers_filter (members : list Member.t) (f : MemberFilter) :
  FilterMembers members f = filter (λ m, f m = true) members.
Proof.
  unfold FilterMembers.
  assert (∀ acc, foldl (λ filtered m, if f m then filtered ++ [m] else filtered)
                   acc members = acc ++ filter (λ m, f m = true) members) as Hgen.
  { induction members as [|m rest IH]; intros acc; cbn [foldl].
    - by rewrite app_nil_r.
    - rewrite IH. destruct (f m) eqn:Hm.
      + rewrite filter_cons_True by done. by rewrite <- app_assoc.
      + rewrite filter_cons_False by congruence. done. }
  apply (Hgen []).
Qed.

Section BuilderMore.
Variable unmarshalServices : string → option (list ServiceInfo.t).
Local Abbreviation derived := (derived unmarshalServices).
Local Abbreviation buildTopology := (buildTopology unmarshalServices).

Lemma appendInfo_map (member : Member.t) (infos : list ServiceInfo.t) :
  foldl (appendInfo member) [] infos = service_of_info member <$> infos.
Proof.
  induction infos as [|info infos IH] using rev_ind; [done|].
  by rewrite foldl_app, fmap_app, IH.
Qed.

Lemma derived_host (member : Member.t) (svc : Service.t) :
  svc ∈ derived member →
  Service.NodeName svc = Member.Name member ∧
  Service.Tags svc = Member.Tags member ∧
  Service.Status svc = mapStatus (Member.Status member).
Proof.
  unfold derived, appendMember.
  destruct (Member.Tags member !! "services") as [servicesJSON|].
  - destruct (unmarshalServices servicesJSON) as [infos|];
      [|by intros ?%elem_of_nil].
    rewrite appendInfo_map. by intros (info & -> & _)%list_elem_of_fmap.
  - destruct (decide (tag member "service_type" ≠ "")); [|by intros ?%elem_of_nil].
    rewrite app_nil_l. by intros ->%list_elem_of_singleton.
Qed.

(** X11: the service list of a snapshot is the service list of its front
    part followed by that of its back part: members contribute
    independently of each other and in snapshot order. *)
Theorem buildTopology_app (members1 members2 : list Member.t) (now : Z) :
  Services (buildTopology (members1 ++ members2) now) =
    Services (buildTopology members1 now) ++ Services (buildTopology members2 now).
Proof. by rewrite !buildTopology_services, fmap_app, concat_app. Qed.

(** X12: a member whose [services] tag decodes contributes one service
    per decoded entry, in order, each hosted on the member, whatever its
    legacy tags say; a member whose [services] tag does not decode
    contributes nothing, even when it carries the legacy tag pair. *)
Theorem derived_structured (member : Member.t) (servicesJSON : string) :
  Member.Tags member !! "services" = Some servicesJSON →
  (∀ infos, unmarshalServices servicesJSON = Some infos →
     derived member = service_of_info member <$> infos) ∧
  (unmarshalServices servicesJSON = None → derived member = []).
Proof.
  intros Htag. unfold derived, appendMember. rewrite Htag. split.
  - intros infos ->. apply appendInfo_map.
  - by intros ->.
Qed.

(** X13: members that carry neither tag format can be struck from the
    snapshot without changing the service list. *)
Theorem buildTopology_skips_untagged (members : list Member.t) (now : Z) :
  Services (buildTopology members now) =
    Services (buildTopology (filter tagged members) now).
Proof.
  rewrite !buildTopology_services.
  induction members as [|member rest IH]; [done|].
  destruct (decide (tagged member)) as [Ht|Hnt].
  - rewrite filter_cons_True by done. cbn. by rewrite IH.
  - rewrite filter_cons_False by done. cbn. rewrite <- IH.
    assert (derived member = []) as ->; [|done].
    unfold derived, appendMember, tagged in *.
    destruct (Member.Tags member !! "services"); [exfalso; apply Hnt; by left|].
    case_decide; [exfalso; apply Hnt; by right|done].
Qed.

(** X14: every service of a built topology is hosted on a member of the
    snapshot: it carries that member's name as node name, that member's
    tag map, and the status mapped from that member's status. *)
Theorem buildTopology_hosts (members : list Member.t) (now : Z) (svc : Service.t) :
  svc ∈ Services (buildTopology members now) →
  ∃ member, member ∈ members ∧
    Service.NodeName svc = Member.Name member ∧
    Service.Tags svc = Member.Tags member ∧
    Service.Status svc = mapStatus (Member.Status member).
Proof.
  rewrite buildTopology_services.
  intros (l & (member & -> & Hmember)%list_elem_of_In%list_elem_of_fmap
            & Hsvc%list_elem_of_In)%list_elem_of_In%in_concat.
  exists member. split; [done|]. by apply derived_host.
Qed.
End BuilderMore.

Lemma derived_structured_witness :
  Member.Tags multi_member !! "services" = Some "api-and-db" ∧
  derived sample_unmarshalServices multi_member =
    [service_of_info multi_member (ServiceInfo.mk "api" "http" "" []);
     service_of_info multi_member
       (ServiceInfo.mk "db" "postgres" "10.0.0.2:5432" ["api"])].
Proof.
  assert (Member.Tags multi_member !! "services" = Some "api-and-db") as Htag
    by reflexivity.
  split; [exact Htag|].
  destruct (derived_structured sample_unmarshalServices multi_member _ Htag)
    as [Hdecoded _].
  exact (Hdecoded [ServiceInfo.mk "api" "http" "" [];
                   ServiceInfo.mk "db" "postgres" "10.0.0.2:5432" ["api"]]
                  eq_refl).
Defined.

Lemma buildTopology_hosts_witness :
  let svc := service_of_info multi_member (ServiceInfo.mk "api" "http" "" []) in
  svc ∈ Services (buildTopology sample_unmarshalServices [multi_member] 0) ∧
  ∃ member, member ∈ [multi_member] ∧
    Service.NodeName svc = Member.Name member ∧
    Service.Tags svc = Member.Tags member ∧
    Service.Status svc = mapStatus (Member.Status member).
Proof.
  intros svc.
  assert (svc ∈ Services (buildTopology sample_unmarshalServices [multi_member] 0))
    as Hsvc by (vm_compute; left).
  split; [exact Hsvc|].
  exact (buildTopology_hosts sample_unmarshalServices [multi_member] 0 svc Hsvc).
Defined.

(** * Further properties of the resource router *)

Lemma find_some_first_where {A} (P : A → Prop) `{∀ x, Decision (P x)}
    (l : list A) (x : A) :
  find (λ y, bool_decide (P y)) l = Some x → first_where P l x.
Proof.
  induction l as [|y l IH]; [done|]. cbn [find].
  destruct (bool_decide (P y)) eqn:Hy.
  - intros [= ->]. exists [], l. split; [done|].
    split; [by apply bool_decide_eq_true in Hy|]. by intros z ?%elem_of_nil.
  - intros (before & after & -> & Hx & Hbefore)%IH.
    exists (y :: before), after. split; [done|]. split; [done|].
    intros z [->|Hz]%elem_of_cons; [by apply bool_decide_eq_false in Hy|by apply Hbefore].
Qed.

Lemma find_none_all {A} (P : A → Prop) `{∀ x, Decision (P x)} (l : list A) :
  find (λ y, bool_decide (P y)) l = None → ∀ y, y ∈ l → ¬ P y.
Proof.
  induction l as [|x l IH]; [by intros _ y ?%elem_of_nil|]. cbn [find].
  destruct (bool_decide (P x)) eqn:Hx; [done|].
  intros Hnone y [->|Hy]%elem_of_cons; [by apply bool_decide_eq_false in Hx|by apply IH].
Qed.

Lemma FindPath_returns (g : Graph) (a b : string) : FindPath g a b ≠ Panic.
Proof.
  destruct (decide (a = b)) as [->|Hab].
  - unfold FindPath. by rewrite decide_True.
  - pose proof (FindPath_outcome g a b Hab). by destruct (FindPath g a b).
Qed.

Section RouterMore.
Variable unmarshalServices : string → option (list ServiceInfo.t).
Variable Resource : Type.
Variable decodeResources : string → option (list Resource).
Variable post : ForwardRequest → post_outcome.
Local Abbreviation GetServiceResources :=
  (GetServiceResources unmarshalServices Resource decodeResources post).
Local Abbreviation buildTopology := (buildTopology unmarshalServices).

(** What a routed request looks like. *)
Lemma route_forward (topology : Topology) (g : Graph) (name : string)
    (req : ForwardRequest) :
  route topology g name = Forward req →
  ∃ target host rest,
    first_where (λ svc, Service.Name svc = name) (Services topology) target ∧
    first_where (λ svc, Service.NodeName svc = Service.NodeName host)
      (Services topology) host ∧
    Service.Address host ≠ "" ∧
    FindPath g "heimdall" (Service.NodeName target)
      = Return (Some ("heimdall" :: Service.NodeName host :: rest)) ∧
    req = mkForward ("http://" +:+ Service.Address host +:+
                       "/meta.v1.LokiMetaService/GetResources")
            name (Service.NodeName host :: rest) 0.
Proof.
  unfold route, findService, entryAddress.
  destruct (find _ (Services topology)) as [target|] eqn:Htarget; [|done].
  apply (find_some_first_where (λ svc, Service.Name svc = name)) in Htarget.
  destruct (FindPath g "heimdall" (Service.NodeName target)) as [|[p|]] eqn:Hpath;
    [done| |done].
  destruct p as [|self [|entryNode rest]]; [done..|].
  destruct (find _ (Services topology)) as [host|] eqn:Hhost; [|done].
  apply (find_some_first_where (λ svc, Service.NodeName svc = entryNode)) in Hhost.
  case_decide as Haddr; [done|]. intros [= <-].
  assert (Service.NodeName host = entryNode) as Hentry.
  { by destruct Hhost as (? & ? & _ & ? & _). }
  subst entryNode. exists target, host, rest.
  assert (self = "heimdall") as ->; [|done].
  destruct (decide ("heimdall" = Service.NodeName target)) as [Heq|Hne].
  - unfold FindPath in Hpath. rewrite decide_True in Hpath by done. done.
  - pose proof (FindPath_outcome g _ _ Hne) as Hout. rewrite Hpath in Hout.
    destruct Hout as [(Hhead & _) _]. by injection Hhead.
Qed.

(** X16: the call never panics: the index into the path taken from the
    queue in [FindPath] is always in range. *)
Theorem GetServiceResources_never_panics (members : list Member.t) (now : Z)
    (g : Graph) (name : string) :
  GetServiceResources members now g name ≠ Panicked Resource.
Proof.
  unfold api.GetServiceResources, route.
  destruct (findService _ name) as [target|]; [|done].
  pose proof (FindPath_returns g "heimdall" (Service.NodeName target)) as Hret.
  destruct (FindPath g "heimdall" (Service.NodeName target)) as [|[p|]]; [done| |done].
  destruct p as [|self [|entryNode rest]]; [done..|].
  case_decide; [done|]. unfold forward.
  destruct (post _) as [| |code body]; [done..|].
  case_decide; [done|]. by destruct (decodeResources body).
Qed.

(** X17: the call fails with NotFound exactly when no service of the
    built topology has the requested name; no later step produces that
    code. *)
Theorem GetServiceResources_not_found_iff (members : list Member.t) (now : Z)
    (g : Graph) (name : string) :
  GetServiceResources members now g name = Err Resource CodeNotFound ↔
  ∀ svc, svc ∈ Services (buildTopology members now) → Service.Name svc ≠ name.
Proof.
  unfold api.GetServiceResources, route, findService. split.
  - destruct (find _ _) as [target|] eqn:Hfind.
    + destruct (FindPath g "heimdall" (Service.NodeName target)) as [|[p|]];
        [done| |done].
      destruct p as [|self [|entryNode rest]]; [done..|].
      case_decide; [done|]. unfold forward.
      destruct (post _) as [| |code body]; [done..|].
      case_decide; [done|]. by destruct (decodeResources body).
    + intros _. by apply (find_none_all (λ svc, Service.Name svc = name)).
  - intros Hnone. by rewrite (find_none_where (λ svc, Service.Name svc = name)).
Qed.

(** X18: when a request is sent, it goes to the non-empty address of the
    first service hosted on the entry node; it carries the requested
    name, hop counter 0 and a path that is the computed route without the
    observer: the path starts at the entry node, which is in the stored
    neighbor list of [heimdall], ends at the node hosting the target
    service, and follows recorded edges. *)
Theorem route_request_shape (topology : Topology) (g : Graph) (name : string)
    (req : ForwardRequest) :
  route topology g name = Forward req →
  serviceName req = name ∧ currentHop req = 0%Z ∧
  ∃ target host,
    first_where (λ svc, Service.Name svc = name) (Services topology) target ∧
    first_where (λ svc, Service.NodeName svc = Service.NodeName host)
      (Services topology) host ∧
    Service.Address host ≠ "" ∧
    serviceURL req = "http://" +:+ Service.Address host +:+
                       "/meta.v1.LokiMetaService/GetResources" ∧
    head (path req) = Some (Service.NodeName host) ∧
    Service.NodeName host ∈ edges_of g "heimdall" ∧
    last (path req) = Some (Service.NodeName target) ∧
    connects g "heimdall" (Service.NodeName target) ("heimdall" :: path req).
Proof.
  intros (target & host & rest & Htarget & Hhost & Haddr & Hpath & ->)%route_forward.
  split; [done|]. split; [done|]. exists target, host.
  split; [done|]. split; [done|]. split; [done|]. split; [done|]. split; [done|].
  assert ("heimdall" ≠ Service.NodeName target) as Hne.
  { intros Heq. unfold FindPath in Hpath. rewrite decide_True in Hpath by done.
    done. }
  pose proof (FindPath_outcome g _ _ Hne) as Hout. rewrite Hpath in Hout.
  destruct Hout as [Hconn _]. cbn [path]. split; [|split; [|done]].
  - by destruct Hconn as (_ & _ & [? _]).
  - by destruct Hconn as (_ & ? & _).
Qed.

(** X19: a successful result always comes from a request that was routed
    and sent, answered with status 200 and a body that decodes to the
    returned resources. *)
Theorem GetServiceResources_ok_only_from_200 (members : list Member.t) (now : Z)
    (g : Graph) (name : string) (resources : list Resource) :
  GetServiceResources members now g name = Ok Resource resources →
  ∃ req body,
    route (buildTopology members now) g name = Forward req ∧
    post req = Response 200 body ∧
    decodeResources body = Some resources.
Proof.
  unfold api.GetServiceResources.
  destruct (route _ g name) as [|code|req]; [done..|]. unfold forward.
  destruct (post req) as [| |code body] eqn:Hpost; [done..|].
  case_decide as Hcode; [done|].
  destruct (decodeResources body) as [rs|] eqn:Hbody; [|done].
  intros [= <-]. exists req, body. split; [done|]. split; [|done].
  assert (code = 200%Z) as -> by (destruct (decide (code = 200%Z)); done).
  done.
Qed.
End RouterMore.

Lemma route_request_shape_witness :
  let topology := buildTopology sample_unmarshalServices [legacy_member "n1" "alive"] 0 in
  let req := mkForward "http://10.0.0.1/meta.v1.LokiMetaService/GetResources"
               "api" ["n1"] 0 in
  route topology sample_route_graph "api" = Forward req ∧
  head (path req) = Some "n1" ∧ "n1" ∈ edges_of sample_route_graph "heimdall".
Proof.
  intros topology req.
  assert (route topology sample_route_graph "api" = Forward req) as Hroute
    by (vm_compute; reflexivity).
  split; [exact Hroute|].
  destruct (route_request_shape topology sample_route_graph "api" req Hroute)
    as (_ & _ & target & host & _ & _ & _ & _ & Hhead & Hedge & _).
  split; [reflexivity|]. cbn [path head] in Hhead. injection Hhead as Hhost.
  by rewrite Hhost.
Defined.

Lemma GetServiceResources_ok_only_from_200_witness :
  GetServiceResources sample_unmarshalServices unit sample_decodeResources
    sample_post_ok [legacy_member "n1" "alive"] 0 sample_route_graph "api"
    = Ok unit [] ∧
  ∃ req body,
    route (buildTopology sample_unmarshalServices [legacy_member "n1" "alive"] 0)
      sample_route_graph "api" = Forward req ∧
    sample_post_ok req = Response 200 body ∧
    sample_decodeResources body = Some [].
Proof.
  assert (GetServiceResources sample_unmarshalServices unit sample_decodeResources
            sample_post_ok [legacy_member "n1" "alive"] 0 sample_route_graph "api"
          = Ok unit []) as Hok by (vm_compute; reflexivity).
  split; [exact Hok|].
  exact (GetServiceResources_ok_only_from_200 _ _ _ _ _ _ _ _ _ Hok).
Defined.

(** * Properties of the member filters *)

(** X20: [FilterMembers] returns exactly the members the filter accepts,
    each as often as it occurs and in the order of the input: the result
    is the input with the rejected members struck out, and with nothing
    else changed.  So it is a sublist of the input, it holds a member
    exactly when the input does and the filter accepts it, and filtering
    the result by a second filter equals filtering once by the
    conjunction. *)
Theorem FilterMembers_spec (members : list Member.t) (f : MemberFilter) :
  FilterMembers members f = List.filter f members ∧
  (∀ m, m ∈ FilterMembers members f ↔ m ∈ members ∧ f m = true) ∧
  FilterMembers members f `sublist_of` members ∧
  (∀ g, FilterMembers (FilterMembers members f) g
        = FilterMembers members (λ m, f m && g m)).
Proof.
  split; [|split; [|split]].
  - rewrite FilterMembers_filter.
    induction members as [|m rest IH]; [done|]. cbn [List.filter].
    destruct (f m) eqn:Hf.
    + rewrite filter_cons_True by done. by rewrite IH.
    + rewrite filter_cons_False by congruence. done.
  - intros m. rewrite FilterMembers_filter, list_elem_of_filter. tauto.
  - rewrite FilterMembers_filter. apply sublist_filter.
  - intros g. rewrite !FilterMembers_filter.
    induction members as [|m rest IH]; [done|].
    destruct (f m) eqn:Hf.
    + rewrite (filter_cons_True (λ m, f m = true)) by done.
      destruct (g m) eqn:Hg.
      * rewrite !filter_cons_True by (by rewrite ?Hf, ?Hg). by rewrite IH.
      * rewrite !filter_cons_False by (rewrite ?Hf, ?Hg; done). done.
    + rewrite !filter_cons_False by (rewrite ?Hf; done). done.
Qed.

(** X21: [GetMembersByTag] returns the members whose tag map holds the key
    with exactly the given value; a member without the key is never
    returned, not even when the empty string is asked for. *)
Theorem GetMembersByTag_spec (members : list Member.t) (key value : string)
    (m : Member.t) :
  m ∈ GetMembersByTag members key value ↔
  m ∈ members ∧ Member.Tags m !! key = Some value.
Proof.
  unfold GetMembersByTag. rewrite FilterMembers_filter, list_elem_of_filter.
  unfold FilterByTag. destruct (Member.Tags m !! key) as [v|].
  - rewrite bool_decide_eq_true. split; intros [? ?]; split; congruence.
  - split; intros [? ?]; done.
Qed.

(** * Properties of the mesh event handlers *)

Section MeshFacts.
Variable Callback : Type.
Variable unmarshal : list byte → option TopologyEvent.
Local Abbreviation Mesh := (Mesh Callback).
Local Abbreviation handleEvent := (handleEvent Callback unmarshal).
Local Abbreviation processEvents := (processEvents Callback unmarshal).

(** The join loop, field by field. *)
Lemma joinOne_all (members : list Member.t) (m : Mesh)
    (acc : list (Callback * Member.t)) :
  foldl (joinOne Callback) (m, acc) members =
    (mkMesh Callback
       (foldl (λ cache member, <[Member.Name member := member]> cache)
              (mesh_members Callback m) members)
       (joinCallbacks Callback m) (leaveCallbacks Callback m) (graph Callback m),
     acc ++ (members ≫= λ member, (λ fn, (fn, member)) <$> joinCallbacks Callback m)).
Proof.
  revert m acc. induction members as [|member rest IH]; intros m acc; cbn [foldl].
  - destruct m. by rewrite app_nil_r.
  - unfold joinOne at 2. cbn [fst snd]. rewrite IH. cbn [mesh_members joinCallbacks
      leaveCallbacks graph]. by rewrite bind_cons, app_assoc.
Qed.

(** The leave loop, field by field. *)
Lemma leaveOne_all (members : list Member.t) (m : Mesh)
    (acc : list (Callback * Member.t)) :
  foldl (leaveOne Callback) (m, acc) members =
    (mkMesh Callback
       (foldl (λ cache member, delete (Member.Name member) cache)
              (mesh_members Callback m) members)
       (joinCallbacks Callback m) (leaveCallbacks Callback m) (graph Callback m),
     acc ++ (members ≫= λ member, (λ fn, (fn, member)) <$> leaveCallbacks Callback m)).
Proof.
  revert m acc. induction members as [|member rest IH]; intros m acc; cbn [foldl].
  - destruct m. by rewrite app_nil_r.
  - unfold leaveOne at 2. cbn [fst snd]. rewrite IH. cbn [mesh_members joinCallbacks
      leaveCallbacks graph]. by rewrite bind_cons, app_assoc.
Qed.

(** The update loop, field by field. *)
Lemma updateOne_all (members : list Member.t) (m : Mesh) :
  foldl (updateOne Callback) m members =
    mkMesh Callback
      (foldl (λ cache member, <[Member.Name member := member]> cache)
             (mesh_members Callback m) members)
      (joinCallbacks Callback m) (leaveCallbacks Callback m) (graph Callback m).
Proof.
  revert m. induction members as [|member rest IH]; intros m; cbn [foldl].
  - by destruct m.
  - by rewrite IH.
Qed.

Lemma lookup_store_all (members : list Member.t) (cache : gmap string Member.t)
    (k : string) :
  (∀ member, member ∈ members → Member.Name member ≠ k) →
  foldl (λ cache member, <[Member.Name member := member]> cache) cache members !! k
    = cache !! k.
Proof.
  revert cache. induction members as [|member rest IH]; intros cache Hk; [done|].
  cbn [foldl]. rewrite IH by (intros; apply Hk; by right).
  apply lookup_insert_ne, Hk. left.
Qed.

Lemma lookup_store_all_in (members : list Member.t) (cache : gmap string Member.t)
    (member : Member.t) :
  member ∈ members →
  ∃ cached, cached ∈ members ∧ Member.Name cached = Member.Name member ∧
    foldl (λ cache member, <[Member.Name member := member]> cache) cache members
      !! Member.Name member = Some cached.
Proof.
  induction members as [|last rest IH] using rev_ind; [by intros ?%elem_of_nil|].
  intros Hin. rewrite foldl_snoc.
  destruct (decide (Member.Name last = Member.Name member)) as [Heq|Hne].
  - exists last. split; [apply elem_of_app; right; left|]. split; [done|].
    rewrite <- Heq. apply lookup_insert_eq.
  - apply elem_of_app in Hin as [Hin| ->%list_elem_of_singleton]; [|done].
    destruct (IH Hin) as (cached & Hcached & Hname & Hlookup).
    exists cached. split; [apply elem_of_app; by left|]. split; [done|].
    by rewrite lookup_insert_ne.
Qed.

Lemma lookup_delete_all (members : list Member.t) (cache : gmap string Member.t)
    (k : string) :
  foldl (λ cache member, delete (Member.Name member) cache) cache members !! k
    = if decide (k ∈ Member.Name <$> members) then None else cache !! k.
Proof.
  revert cache. induction members as [|member rest IH]; intros cache; [done|].
  cbn [foldl]. rewrite IH, fmap_cons.
  destruct (decide (k ∈ Member.Name <$> rest)) as [Hin|Hnin].
  - rewrite decide_True; [done|]. by right.
  - rewrite lookup_delete. destruct (decide (Member.Name member = k)) as [<-|Hne].
    + rewrite decide_True; [done|]. left.
    + rewrite decide_False; [done|].
      intros [?|?]%elem_of_cons; [congruence|done].
Qed.

(** X22: only user events named [topology] reach the graph.  After any
    run of events the graph is what [Update] makes of the payloads of
    those events, in order, and the registered callbacks are as they
    were. *)
Theorem processEvents_graph (m : Mesh) (events : list Event) :
  graph Callback (processEvents m events)
    = updates unmarshal (graph Callback m) (topology_payloads events) ∧
  joinCallbacks Callback (processEvents m events) = joinCallbacks Callback m ∧
  leaveCallbacks Callback (processEvents m events) = leaveCallbacks Callback m.
Proof.
  revert m. induction events as [|e rest IH]; intros m; [done|].
  unfold serf.processEvents, topology_payloads. cbn [foldl]. rewrite bind_cons.
  fold (processEvents (handleEvent m e).1 rest). fold (topology_payloads rest).
  destruct (IH (handleEvent m e).1) as (-> & -> & ->). clear IH.
  destruct e as [ms|ms|ms|ms|ms|name payload|]; cbn [serf.handleEvent];
    unfold handleMemberJoin, handleMemberLeave, handleMemberUpdate;
    rewrite ?joinOne_all, ?leaveOne_all, ?updateOne_all; cbn [fst app];
    try done.
  unfold handleUserEvent. destruct (decide (name = "topology")); [|done].
  cbn [fst graph joinCallbacks leaveCallbacks]. unfold updates.
  by rewrite foldl_app.
Qed.

(** X23: after a join or update event every member of the event is cached
    under its name, with the record of a member of the event that has that
    name; after a leave or failed event no member of the event is cached;
    a name that the event does not mention keeps its cache entry. *)
Theorem handleEvent_member_cache (m : Mesh) (members : list Member.t) :
  (∀ member e, e = EventMemberJoin members ∨ e = EventMemberUpdate members →
     member ∈ members →
     ∃ cached, cached ∈ members ∧ Member.Name cached = Member.Name member ∧
       mesh_members Callback (handleEvent m e).1 !! Member.Name member
         = Some cached) ∧
  (∀ member e, e = EventMemberLeave members ∨ e = EventMemberFailed members →
     member ∈ members →
     mesh_members Callback (handleEvent m e).1 !! Member.Name member = None) ∧
  (∀ k e, (∀ member, member ∈ members → Member.Name member ≠ k) →
     e = EventMemberJoin members ∨ e = EventMemberUpdate members ∨
     e = EventMemberLeave members ∨ e = EventMemberFailed members →
     mesh_members Callback (handleEvent m e).1 !! k
       = mesh_members Callback m !! k).
Proof.
  split; [|split].
  - intros member e [->| ->] Hin; cbn [serf.handleEvent];
      unfold handleMemberJoin, handleMemberUpdate;
      rewrite ?joinOne_all, ?updateOne_all; cbn [fst mesh_members];
      by apply lookup_store_all_in.
  - intros member e [->| ->] Hin; cbn [serf.handleEvent];
      unfold handleMemberLeave; rewrite leaveOne_all; cbn [fst mesh_members];
      rewrite lookup_delete_all, decide_True; try done;
      apply list_elem_of_fmap; by exists member.
  - intros k e Hk [->| [->| [->| ->]]]; cbn [serf.handleEvent];
      unfold handleMemberJoin, handleMemberUpdate, handleMemberLeave;
      rewrite ?joinOne_all, ?updateOne_all, ?leaveOne_all; cbn [fst mesh_members];
      try (by apply lookup_store_all).
    all: rewrite lookup_delete_all, decide_False; [done|];
      intros (member & -> & Hin)%list_elem_of_fmap; by apply (Hk member).
Qed.

(** X24: a join event followed by a leave event for the same members, none
    of whom was cached before, leaves the member cache as it was. *)
Theorem join_then_leave_restores_cache (m : Mesh) (members : list Member.t) :
  (∀ member, member ∈ members →
     mesh_members Callback m !! Member.Name member = None) →
  mesh_members Callback
    (processEvents m [EventMemberJoin members; EventMemberLeave members])
    = mesh_members Callback m.
Proof.
  intros Hnew. unfold serf.processEvents.
  cbn [foldl serf.handleEvent]. unfold handleMemberJoin, handleMemberLeave.
  rewrite joinOne_all. cbn [fst]. rewrite leaveOne_all. cbn [fst mesh_members].
  apply map_eq. intros k. rewrite lookup_delete_all.
  destruct (decide (k ∈ Member.Name <$> members)) as [Hin|Hnin].
  - apply list_elem_of_fmap in Hin as (member & -> & Hin). symmetry. by apply Hnew.
  - apply lookup_store_all. intros member Hin Heq. apply Hnin.
    apply list_elem_of_fmap. by exists member.
Qed.

(** X25: a join event starts every registered join callback once for each
    of its members, member by member and in registration order; a leave or
    failed event does the same with the leave callbacks; update events,
    user events and the events without a case start none. *)
Theorem handleEvent_callbacks (m : Mesh) (e : Event) :
  started Callback (handleEvent m e).2 =
    match e with
    | EventMemberJoin members =>
        members ≫= λ member, (λ fn, (fn, member)) <$> joinCallbacks Callback m
    | EventMemberLeave members | EventMemberFailed members =>
        members ≫= λ member, (λ fn, (fn, member)) <$> leaveCallbacks Callback m
    | _ => []
    end.
Proof.
  destruct e as [ms|ms|ms|ms|ms|name payload|]; cbn [serf.handleEvent];
    unfold handleMemberJoin, handleMemberLeave, handleMemberUpdate;
    rewrite ?joinOne_all, ?leaveOne_all; try done.
  unfold handleUserEvent. by case_decide.
Qed.

(** X26: a user event named [topology] whose payload does not parse
    changes nothing in the mesh, and is still logged as a topology update
    after the parse failure is logged. *)
Theorem handleUserEvent_malformed (m : Mesh) (payload : list byte) :
  unmarshal payload = None →
  (handleEvent m (EventUser "topology" payload)).1 = m ∧
  logged Callback (handleEvent m (EventUser "topology" payload)).2
    = [FromGraph LogParseFailure; LogTopologyUpdatedFromNode].
Proof.
  intros Hd. cbn [serf.handleEvent]. unfold handleUserEvent, Update.
  rewrite decide_True by done. rewrite Hd. cbn. by destruct m.
Qed.
End MeshFacts.

Lemma handleEvent_member_cache_witness :
  let n1 := legacy_member "n1" "alive" in
  mesh_members nat
    (handleEvent nat sample_unmarshal sample_mesh (EventMemberJoin [n1])).1 !! "n1"
    = Some n1 ∧
  mesh_members nat
    (handleEvent nat sample_unmarshal
       (handleEvent nat sample_unmarshal sample_mesh (EventMemberJoin [n1])).1
       (EventMemberFailed [n1])).1 !! "n1" = None.
Proof.
  intros n1. split.
  - destruct (handleEvent_member_cache nat sample_unmarshal sample_mesh [n1])
      as (Hjoin & _ & _).
    destruct (Hjoin n1 (EventMemberJoin [n1])) as (cached & Hin & _ & Hlookup);
      [by left|left|].
    apply list_elem_of_singleton in Hin as ->. exact Hlookup.
  - destruct (handleEvent_member_cache nat sample_unmarshal
                (handleEvent nat sample_unmarshal sample_mesh (EventMemberJoin [n1])).1
                [n1]) as (_ & Hleave & _).
    apply (Hleave n1 (EventMemberFailed [n1])); [by right|left].
Defined.

Lemma join_then_leave_restores_cache_witness :
  (∀ member, member ∈ [legacy_member "n1" "alive"] →
     mesh_members nat sample_mesh !! Member.Name member = None) ∧
  mesh_members nat
    (processEvents nat sample_unmarshal sample_mesh
       [EventMemberJoin [legacy_member "n1" "alive"];
        EventMemberLeave [legacy_member "n1" "alive"]])
    = mesh_members nat sample_mesh.
Proof.
  assert (∀ member, member ∈ [legacy_member "n1" "alive"] →
            mesh_members nat sample_mesh !! Member.Name member = None) as Hnew
    by (intros member _; apply lookup_empty).
  split; [exact Hnew|]. by apply join_then_leave_restores_cache.
Defined.

Lemma handleUserEvent_malformed_witness :
  sample_unmarshal [] = None ∧
  (handleEvent nat sample_unmarshal sample_mesh (EventUser "topology" [])).1
    = sample_mesh.
Proof.
  split; [reflexivity|].
  by apply (handleUserEvent_malformed nat sample_unmarshal sample_mesh []).
Defined.

(** * Properties of the live distribution hub *)

Section HubFacts.
Variable unmarshalServices : string → option (list ServiceInfo.t).
Local Abbreviation notifyWatchers := (notifyWatchers unmarshalServices).
Local Abbreviation notifications := (notifications unmarshalServices).
Local Abbreviation full_update := (full_update unmarshalServices).

(** What one notification does to one registered channel. *)
Lemma notifyWatchers_lookup (watchers : gmap positive channel)
    (members : list Member.t) (now : Z) (id : positive) :
  notifyWatchers watchers members now !! id =
    trySend (full_update (members, now)) <$> watchers !! id.
Proof.
  unfold api.notifyWatchers. case_decide as Hsize; [|by rewrite lookup_fmap].
  apply map_size_empty_iff in Hsize as ->. by rewrite lookup_empty.
Qed.

(** X27: a notification neither adds nor removes a watcher, and what it
    does to one channel does not depend on any other: a channel with room
    gets the update at the end of its buffer, a full channel is left as it
    is; no buffer grows past its capacity. *)
Theorem notifyWatchers_each_channel (watchers : gmap positive channel)
    (members : list Member.t) (now : Z) :
  dom (notifyWatchers watchers members now) = dom watchers ∧
  ∀ id ch, watchers !! id = Some ch →
    (length (buffer ch) < capacity ch →
       notifyWatchers watchers members now !! id =
         Some (mkChannel (capacity ch) (buffer ch ++ [full_update (members, now)]))) ∧
    (capacity ch ≤ length (buffer ch) →
       notifyWatchers watchers members now !! id = Some ch) ∧
    (length (buffer ch) ≤ capacity ch →
       ∃ ch', notifyWatchers watchers members now !! id = Some ch' ∧
              capacity ch' = capacity ch ∧ length (buffer ch') ≤ capacity ch').
Proof.
  split.
  - apply set_eq. intros id. rewrite !elem_of_dom, notifyWatchers_lookup.
    by rewrite fmap_is_Some.
  - intros id ch Hid. rewrite notifyWatchers_lookup, Hid. cbn. unfold trySend.
    split; [|split].
    + intros Hroom. by rewrite decide_True.
    + intros Hfull. rewrite decide_False by lia. done.
    + intros Hbound. case_decide.
      * eexists. split; [done|]. cbn. rewrite length_app. cbn. split; [done|lia].
      * by exists ch.
Qed.

(** X28: over a run of notifications with no receive in between, a
    registered channel keeps what it had and takes the updates in the order
    sent until it is full: the later updates are the ones dropped. *)
Theorem notifications_keep_oldest (snapshots : list (list Member.t * Z))
    (watchers : gmap positive channel) (id : positive) (ch : channel) :
  watchers !! id = Some ch → length (buffer ch) ≤ capacity ch →
  notifications watchers snapshots !! id =
    Some (mkChannel (capacity ch)
            (take (capacity ch) (buffer ch ++ (full_update <$> snapshots)))).
Proof.
  revert watchers ch.
  induction snapshots as [|snapshot rest IH]; intros watchers ch Hid Hbound.
  - cbn. rewrite app_nil_r, take_ge by done. by destruct ch.
  - unfold notifications. cbn [foldl].
    fold (notifications (notifyWatchers watchers snapshot.1 snapshot.2) rest).
    assert (notifyWatchers watchers snapshot.1 snapshot.2 !! id
            = Some (trySend (full_update snapshot) ch)) as Hnext.
    { rewrite notifyWatchers_lookup, Hid. by destruct snapshot. }
    unfold trySend in Hnext. case_decide as Hroom.
    + rewrite (IH _ _ Hnext) by (cbn; rewrite length_app; cbn; lia).
      cbn [capacity buffer]. by rewrite <- app_assoc.
    + rewrite (IH _ _ Hnext) by done. f_equal. f_equal.
      rewrite !take_app_le by lia. done.
Qed.

(** X29: registration enters a new, empty channel of capacity 10 under an
    identity that was not in use and leaves the other watchers alone;
    removing that identity again gives back the watcher set as it was. *)
Theorem register_unregister (watchers : gmap positive channel) :
  watchers !! (register watchers).1 = None ∧
  (register watchers).2 !! (register watchers).1 = Some (mkChannel 10 []) ∧
  (∀ id, id ≠ (register watchers).1 →
     (register watchers).2 !! id = watchers !! id) ∧
  unregister (register watchers).1 (register watchers).2 = watchers.
Proof.
  unfold register, unregister. cbn [fst snd].
  assert (watchers !! fresh (dom watchers) = None) as Hfresh
    by apply not_elem_of_dom, is_fresh.
  split; [done|]. split; [apply lookup_insert_eq|]. split.
  - intros id Hid. by rewrite lookup_insert_ne.
  - by apply delete_insert_id.
Qed.
End HubFacts.

Lemma notifyWatchers_each_channel_witness :
  let full := mkChannel 1 [mkUpdate (mkTopology [] 0) UPDATE_TYPE_FULL] in
  let watchers : gmap positive channel :=
    <[1%positive := full]> (<[2%positive := mkChannel 10 []]> ∅) in
  watchers !! 1%positive = Some full ∧
  notifyWatchers sample_unmarshalServices watchers [] 5 !! 1%positive = Some full ∧
  notifyWatchers sample_unmarshalServices watchers [] 5 !! 2%positive
    = Some (mkChannel 10 [mkUpdate (mkTopology [] 5) UPDATE_TYPE_FULL]).
Proof.
  intros full watchers.
  destruct (notifyWatchers_each_channel sample_unmarshalServices watchers [] 5)
    as [_ Heach].
  split; [reflexivity|]. split.
  - apply (Heach 1%positive full); [reflexivity|]. cbn. lia.
  - destruct (Heach 2%positive (mkChannel 10 [])) as (Hroom & _); [reflexivity|].
    apply Hroom. cbn. lia.
Defined.

(** A new watcher that reads nothing while twelve snapshots are pushed
    holds the first ten. *)
Lemma notifications_keep_oldest_witness :
  let snapshots := (λ now, ([] : list Member.t, now)) <$>
                     [1; 2; 3; 4; 5; 6; 7; 8; 9; 10; 11; 12]%Z in
  (register ∅).2 !! (register ∅).1 = Some (mkChannel 10 []) ∧
  (λ ch, Timestamp ∘ update_Topology <$> buffer ch) <$>
     (notifications sample_unmarshalServices (register ∅).2 snapshots
        !! (register ∅).1)
    = Some [1; 2; 3; 4; 5; 6; 7; 8; 9; 10]%Z.
Proof.
  intros snapshots.
  assert ((register ∅).2 !! (register ∅).1 = Some (mkChannel 10 [])) as Hnew
    by (vm_compute; reflexivity).
  split; [exact Hnew|].
  rewrite (notifications_keep_oldest sample_unmarshalServices snapshots _ _ _ Hnew)
    by (cbn; lia).
  vm_compute. reflexivity.
Defined.
